(** * minerBlockchain: the miner node of [src/miner.js]

    A shallow embedding of the [Miner] object and of its methods, and the
    properties of the pool flush, the mining step, the broadcast on solve,
    the chain replacement and the peer registry.

    Conventions of the embedding.
    - The [Miner] object is a record; a method that mutates [this] is a
      computation in a state-and-exception monad over that record.  A thrown
      JavaScript exception keeps the state reached when it was thrown.
    - The libraries [blockblockchain] ([Block]), [transactionblockchain]
      ([Transaction]) and the modules [./message] and [./util] are not part
      of the file under study.  The functions of [Block] and [Transaction]
      are the fields of the interface [External], and are taken to be
      functions of their arguments; one that JavaScript calls for its
      effect on an argument ([Block.addTransaction],
      [Transaction.addToMap]) returns that argument after the call.
      [Util.unblock().then(f)] runs [f] later, once; a callback handed to
      [net.createConnection] or [Message.exportBlocks] runs later, at most
      once.
    - Objects that JavaScript mutates in place (a block, the transaction
      map) are values here: an in-place update replaces the value at its
      position in the miner's state.
    - Asynchronous code is split where JavaScript splits it: the
      synchronous part of a method is one computation, each callback is
      another, and an event trace says in which order callbacks run. *)

From Stdlib Require Import ZArith List String Bool Lia Permutation DecimalString.
Import ListNotations.

Set Implicit Arguments.

Local Open Scope string_scope.
Local Open Scope list_scope.
Local Open Scope Z_scope.

(** ** Data *)

Definition Key := string.

(** A peer of [node_list]: [{ address, port }]. *)
Record Node : Type := mkNode {
  address : string;
  node_port : Z
}.

(** An output of a transaction as [createNewCoin] builds it:
    [{ owner_public_key, value }]. *)
Module Output.
Record t : Type := make {
  owner_public_key : Key;
  value : Z
}.
End Output.

Section MinerNode.

(** Types owned by the external libraries. *)
Variables Transaction TxMap BlockMeta TxInput TxType : Type.

(** The [data] field of a block is a JavaScript value: the array of the
    block's transactions, or something else (the genesis block is created
    from the string ["GENESIS"]). *)
Inductive Payload : Type :=
| Marker (s : string)
| TxList (txs : list Transaction).

(** A block: the two fields the miner touches, [data] and [nonce], and
    the rest, which belongs to the block library. *)
Record Block : Type := mkBlock {
  data : Payload;
  nonce : Z;
  meta : BlockMeta
}.

(** The result of [Block.getVerificationMetadata]. *)
Record VerificationMetadata : Type := mkVerification {
  valid : bool;
  vm_transaction_map : TxMap
}.

(** What the miner writes: a line to [this.logger], or the chain dumped
    by [console.log]. *)
Inductive LogEntry : Type :=
| Line (s : string)
| Dump (chain : list Block).

(** The fields of the [Miner] object ([server] apart); [logger] is the
    list of entries written so far. *)
Record Miner : Type := mkMiner {
  transaction_pool : list Transaction;
  transaction_map : TxMap;
  blockchain : list Block;
  node_list : list Node;
  port : Z;
  host : string;
  logger : list LogEntry;
  actively_mining : bool;
  miner_public_key : Key;
  miner_private_key : Key;
  owner_public_key : Key
}.

(** The functions of the external libraries the miner calls. *)
Class External : Type := {
  (** [{}], the empty JavaScript object *)
  empty_object : TxMap;
  Block_create : string -> Block;
  (** [Block.createFrom] receives [this.latestBlock()], which is
      [undefined] ([None]) on an empty chain *)
  Block_createFrom : option Block -> Block;
  Block_computeHash : Block -> string;
  Block_getVerificationMetadata : list Block -> VerificationMetadata;
  Block_addTransaction : Block -> Transaction -> Block;
  Block_toString : Block -> string;
  Transaction_verify : Transaction -> TxMap -> Block -> bool;
  Transaction_addToMap : Transaction -> TxMap -> TxMap;
  Transaction_create :
    Key -> Key -> list TxInput -> list Output.t -> TxType -> Transaction;
  (** [Transaction.TYPES.NEW_COIN] *)
  NEW_COIN : TxType
}.

(** Field updates. *)
Definition set_transaction_pool (p : list Transaction) (m : Miner) : Miner :=
  mkMiner p (transaction_map m) (blockchain m) (node_list m) (port m)
    (host m) (logger m) (actively_mining m) (miner_public_key m)
    (miner_private_key m) (owner_public_key m).

Definition set_transaction_map (tm : TxMap) (m : Miner) : Miner :=
  mkMiner (transaction_pool m) tm (blockchain m) (node_list m) (port m)
    (host m) (logger m) (actively_mining m) (miner_public_key m)
    (miner_private_key m) (owner_public_key m).

Definition set_blockchain (c : list Block) (m : Miner) : Miner :=
  mkMiner (transaction_pool m) (transaction_map m) c (node_list m) (port m)
    (host m) (logger m) (actively_mining m) (miner_public_key m)
    (miner_private_key m) (owner_public_key m).

Definition set_node_list (l : list Node) (m : Miner) : Miner :=
  mkMiner (transaction_pool m) (transaction_map m) (blockchain m) l (port m)
    (host m) (logger m) (actively_mining m) (miner_public_key m)
    (miner_private_key m) (owner_public_key m).

Definition set_logger (l : list LogEntry) (m : Miner) : Miner :=
  mkMiner (transaction_pool m) (transaction_map m) (blockchain m)
    (node_list m) (port m) (host m) l (actively_mining m)
    (miner_public_key m) (miner_private_key m) (owner_public_key m).

Definition set_data (d : Payload) (b : Block) : Block :=
  mkBlock d (nonce b) (meta b).

Definition set_nonce (n : Z) (b : Block) : Block :=
  mkBlock (data b) n (meta b).

(** Two miner states that differ at most in what was logged. *)
Definition same_but_log (m m' : Miner) : Prop :=
  m' = set_logger (logger m') m.

(** ** The state-and-exception monad of the methods *)

Inductive JsError : Type :=
| TypeError (msg : string).

Inductive Result (A : Type) : Type :=
| Ok (a : A) (m : Miner)
| Throw (e : JsError) (m : Miner).

Definition M (A : Type) : Type := Miner -> Result A.

Arguments Ok {A} a m.

Definition ret {A} (a : A) : M A := fun m => Ok a m.

Definition bind {A B} (c : M A) (k : A -> M B) : M B :=
  fun m => match c m with
           | Ok a m' => k a m'
           | Throw _ e m' => Throw B e m'
           end.

Definition throw {A} (e : JsError) : M A := fun m => Throw A e m.
Definition get : M Miner := fun m => Ok m m.
Definition modify (f : Miner -> Miner) : M unit := fun m => Ok tt (f m).

(** The state a computation ends in, thrown or not. *)
Definition final_state {A} (r : Result A) : Miner :=
  match r with
  | Ok _ m => m
  | Throw _ _ m => m
  end.

Notation "x <- c1 ;; c2" := (bind c1 (fun x => c2))
  (at level 61, c1 at next level, right associativity).
Notation "c1 ;; c2" := (bind c1 (fun _ => c2))
  (at level 61, right associativity).

(** [array.forEach(f)], the callbacks run in order; an exception thrown
    by one of them ends the loop. *)
Fixpoint forEach {A} (l : list A) (f : A -> M unit) : M unit :=
  match l with
  | [] => ret tt
  | x :: l' => f x ;; forEach l' f
  end.

(** [this.logger.log(s)] *)
Definition log (s : string) : M unit :=
  modify (fun m => set_logger (logger m ++ [Line s]) m).

(** [console.log(chain)] *)
Definition console_log (c : list Block) : M unit :=
  modify (fun m => set_logger (logger m ++ [Dump c]) m).

(** ** JavaScript numbers and strings *)

(** The double nearest to an integer, ties to the even significand
    (integers up to [2^53] in absolute value are doubles). *)
Definition round_to_double (x : Z) : Z :=
  if Z.abs x <=? 2 ^ 53 then x
  else
    let u := 2 ^ (Z.log2 (Z.abs x) - 52) in
    let q := x / u in
    let r := x mod u in
    if 2 * r <? u then q * u
    else if u <? 2 * r then (q + 1) * u
    else if Z.even q then q * u
    else (q + 1) * u.

(** [n++] on a number holding an integer: the new value of the
    variable. *)
Definition js_increment (n : Z) : Z := round_to_double (n + 1).

(** A number in a string concatenation. *)
Definition number_toString (n : Z) : string :=
  NilZero.string_of_int (Z.to_int n).

Definition boolean_toString (b : bool) : string :=
  if b then "true" else "false".

(** ** The methods of [Miner] *)

Context {X : External}.

(** [addNodes]: the inner [forEach] sets the flag when a listed peer has
    the same address and the same port ([==] on two strings, on two
    numbers). *)
Definition same_endpoint (node our_node : Node) : bool :=
  String.eqb (address node) (address our_node)
  && Z.eqb (node_port node) (node_port our_node).

Definition already_in_list (node : Node) (l : list Node) : bool :=
  fold_left
    (fun flag our_node => if same_endpoint node our_node then true else flag)
    l false.

Definition addNodes (nodes : list Node) : M unit :=
  forEach nodes (fun node =>
    m <- get ;;
    if negb (already_in_list node (node_list m))
    then modify (set_node_list (node_list m ++ [node]))
    else ret tt).

(** [latestBlock]: [this.blockchain[this.blockchain.length - 1]], which is
    [undefined] on an empty chain (index [-1]; here the subtraction on
    [nat] stops at [0], and position [0] of the empty list is absent
    too). *)
Definition latestBlock (m : Miner) : option Block :=
  nth_error (blockchain m) (List.length (blockchain m) - 1).

Fixpoint update_at {A} (i : nat) (f : A -> A) (l : list A) : list A :=
  match l, i with
  | [], _ => []
  | x :: l', O => f x :: l'
  | x :: l', S i' => x :: update_at i' f l'
  end.

(** An in-place change of the object [this.latestBlock()] returns. *)
Definition update_latest (f : Block -> Block) (m : Miner) : Miner :=
  set_blockchain (update_at (List.length (blockchain m) - 1) f (blockchain m)) m.

(** A property read or method call on [this.latestBlock()]: a
    [TypeError] when the chain is empty. *)
Definition theLatestBlock : M Block :=
  m <- get ;;
  match latestBlock m with
  | Some b => ret b
  | None => throw (TypeError "Cannot read properties of undefined")
  end.

(** [this.latestBlock().data.push(transaction)] *)
Definition data_push (t : Transaction) : M unit :=
  b <- theLatestBlock ;;
  match data b with
  | TxList txs => modify (update_latest (set_data (TxList (txs ++ [t]))))
  | Marker _ => throw (TypeError "data.push is not a function")
  end.

(** [this.latestBlock().data.pop()] *)
Definition data_pop : M unit :=
  b <- theLatestBlock ;;
  match data b with
  | TxList txs => modify (update_latest (set_data (TxList (removelast txs))))
  | Marker _ => throw (TypeError "data.pop is not a function")
  end.

(** [flushTransaction]: the callback given to [Util.unblock().then].
    Once [push] went through the chain has a tip, so the two later calls of
    [this.latestBlock()], whose results go to the libraries, find it. *)
Definition flushTransaction (transaction : Transaction) : M unit :=
  data_push transaction ;;
  m <- get ;;
  b <- theLatestBlock ;;
  let valid := Transaction_verify transaction (transaction_map m) b in
  data_pop ;;
  if valid then
    modify (fun m =>
      set_transaction_map
        (Transaction_addToMap transaction (transaction_map m)) m) ;;
    b <- theLatestBlock ;;
    modify (update_latest (fun _ => Block_addTransaction b transaction))
  else ret tt.

(** [flushTransactionPool], its synchronous part: one pending callback
    per pooled transaction (the result lists their arguments, in pool
    order), and the pool is replaced by a new empty array. *)
Definition flushTransactionPool : M (list Transaction) :=
  m <- get ;;
  let transaction_promises := map (fun t => t) (transaction_pool m) in
  modify (set_transaction_pool []) ;;
  ret transaction_promises.

(** The pending callbacks of a flush, run in the order [order].  Each is
    a unit of work of its own: one that throws rejects its promise, and
    the state it reached stays. *)
Fixpoint run_flush (order : list Transaction) (m : Miner)
  : Miner * list JsError :=
  match order with
  | [] => (m, [])
  | t :: rest =>
      match flushTransaction t m with
      | Ok _ m' => run_flush rest m'
      | Throw _ e m' =>
          let (m'', errs) := run_flush rest m' in (m'', e :: errs)
      end
  end.

(** [createGenesisBlock] *)
Definition createGenesisBlock : M unit :=
  modify (set_blockchain [Block_create "GENESIS"]) ;;
  modify (set_transaction_map empty_object).

(** [createGenesisIfNeeded] *)
Definition createGenesisIfNeeded : M unit :=
  m <- get ;;
  if (List.length (blockchain m) =? 0)%nat then createGenesisBlock else ret tt.

(** [createNewCoin]: the arguments handed to [Transaction.create]. *)
Record CreateCall : Type := mkCall {
  call_public_key : Key;
  call_private_key : Key;
  call_inputs : list TxInput;
  call_outputs : list Output.t;
  call_type : TxType
}.

Definition createNewCoin_call (m : Miner) : CreateCall :=
  mkCall (miner_public_key m) (miner_private_key m) []
    [Output.make (miner_public_key m) 1] NEW_COIN.

Definition apply_create (c : CreateCall) : Transaction :=
  Transaction_create (call_public_key c) (call_private_key c)
    (call_inputs c) (call_outputs c) (call_type c).

Definition createNewCoin (m : Miner) : Transaction :=
  apply_create (createNewCoin_call m).

(** [addTransactionToPool] *)
Definition addTransactionToPool (transaction : Transaction) : M unit :=
  modify (fun m => set_transaction_pool (transaction_pool m ++ [transaction]) m).

(** [logChain] *)
Definition logChain (chain : list Block) (prefix : string) : M unit :=
  forEach chain (fun block =>
    log (String.append prefix (Block_toString block))) ;;
  console_log chain ;;
  m <- get ;;
  log (String.append "Is chain valid: "
         (boolean_toString
            (valid (Block_getVerificationMetadata (blockchain m))))).

(** [pushNewBlock] *)
Definition pushNewBlock : M unit :=
  log "Pushing new block onto blockchain:" ;;
  m <- get ;;
  modify (set_blockchain (blockchain m ++ [Block_createFrom (latestBlock m)])) ;;
  m <- get ;;
  addTransactionToPool (createNewCoin m) ;;
  m <- get ;;
  logChain (blockchain m) "    ".

(** [this.latestBlock().data.map(t => this.addTransactionToPool(t))] *)
Definition requeue_latest_data : M unit :=
  b <- theLatestBlock ;;
  match data b with
  | TxList txs => forEach txs addTransactionToPool
  | Marker _ => throw (TypeError "data.map is not a function")
  end.

(** [receiveNewBlockchain] *)
Definition receiveNewBlockchain (chain : list Block) : M unit :=
  log "Received new blockchain." ;;
  m <- get ;;
  if (List.length (blockchain m) <? List.length chain)%nat then
    log "Blockchain was longer than our current, verifying." ;;
    let verificationMetadata := Block_getVerificationMetadata chain in
    log "Verification complete." ;;
    if valid verificationMetadata then
      log "Blockchain was valid, replacing current with:" ;;
      requeue_latest_data ;;
      modify (set_blockchain chain) ;;
      modify (set_transaction_map (vm_transaction_map verificationMetadata)) ;;
      m <- get ;;
      logChain (blockchain m) "    " ;;
      pushNewBlock
    else
      log "Blockchain was invalid - ignoring." ;;
      log "Invalid blockchain:" ;;
      logChain chain "    "
  else
    log "Blockchain not longer than current - ignoring.".

(** ** The hashing step and the broadcast on solve *)

(** The exports of one solve: [completed_exports], the peers whose
    connection is being opened ([net.createConnection] was called, its
    callback has not run), the peers whose export is under way
    ([Message.exportBlocks] was called, its callback has not run), and
    whether the promise of [computeHash] was resolved.  A connection that
    fails stays in [connecting]: no callback runs for it. *)
Record Broadcast : Type := mkBroadcast {
  completed_exports : nat;
  connecting : list Node;
  exporting : list Node;
  resolved : bool
}.

(** What the promise returned by [computeHash] is when the synchronous
    part of [computeHash] returns. *)
Inductive HashStep : Type :=
| Delayed (ms : Z)            (** [Util.delay(ms)]: resolved [ms] later *)
| Resolved                    (** [resolve()] was called: not solved *)
| Exporting (bc : Broadcast). (** solved: left to the export callbacks *)

(** [computeHash], its synchronous part. *)
Definition computeHash : M HashStep :=
  m <- get ;;
  if negb (actively_mining m) then ret (Delayed 100)
  else
    b <- theLatestBlock ;;
    modify (update_latest (fun _ => set_nonce (js_increment (nonce b)) b)) ;;
    b <- theLatestBlock ;;
    if String.prefix "000" (Block_computeHash b) then
      log "Solved the hash problem." ;;
      m <- get ;;
      ret (Exporting (mkBroadcast 0 (node_list m) [] false))
    else ret Resolved.

(** The callback of [net.createConnection]: a log line, then
    [Message.exportBlocks] is called. *)
Definition connect_callback (node : Node) : M unit :=
  log (String.append "Sending blockchain to: "
        (String.append (address node)
          (String.append "::"
            (String.append (number_toString (node_port node)) ".")))).

(** The callback of [Message.exportBlocks]: [client.end()], then the
    count; [bc] is the broadcast with this export already taken out of
    [exporting]. *)
Definition export_callback (bc : Broadcast) : M Broadcast :=
  let completed := S (completed_exports bc) in
  m <- get ;;
  if (completed =? List.length (node_list m))%nat then
    pushNewBlock ;;
    ret (mkBroadcast completed (connecting bc) (exporting bc) true)
  else
    ret (mkBroadcast completed (connecting bc) (exporting bc) (resolved bc)).

(** What can happen while the exports of a solve are under way: the
    [i]-th opening connection is established, the [i]-th export under way
    finishes, [addNodes] is called, a transaction or a chain comes in. *)
Inductive Event : Type :=
| Connected (i : nat)
| Exported (i : nat)
| NodesAdded (nodes : list Node)
| TransactionReceived (t : Transaction)
| BlockchainReceived (chain : list Block).

Definition remove_at {A} (i : nat) (l : list A) : list A :=
  firstn i l ++ skipn (S i) l.

Definition handler (c : M unit) (m : Miner) (bc : Broadcast)
  : option (Miner * Broadcast) :=
  match c m with
  | Ok _ m' => Some (m', bc)
  | Throw _ _ _ => None
  end.

(** One event; [None] when the event cannot happen in this
    configuration, or when its handler throws (the exception is uncaught
    and the process ends). *)
Definition step (e : Event) (cfg : Miner * Broadcast)
  : option (Miner * Broadcast) :=
  let (m, bc) := cfg in
  match e with
  | Connected i =>
      match nth_error (connecting bc) i with
      | Some node =>
          handler (connect_callback node) m
            (mkBroadcast (completed_exports bc) (remove_at i (connecting bc))
               (exporting bc ++ [node]) (resolved bc))
      | None => None
      end
  | Exported i =>
      match nth_error (exporting bc) i with
      | Some _ =>
          match
            export_callback
              (mkBroadcast (completed_exports bc) (connecting bc)
                 (remove_at i (exporting bc)) (resolved bc)) m
          with
          | Ok bc' m' => Some (m', bc')
          | Throw _ _ _ => None
          end
      | None => None
      end
  | NodesAdded nodes => handler (addNodes nodes) m bc
  | TransactionReceived t => handler (addTransactionToPool t) m bc
  | BlockchainReceived chain => handler (receiveNewBlockchain chain) m bc
  end.

Fixpoint run (trace : list Event) (cfg : Miner * Broadcast)
  : option (Miner * Broadcast) :=
  match trace with
  | [] => Some cfg
  | e :: rest =>
      match step e cfg with
      | Some cfg' => run rest cfg'
      | None => None
      end
  end.

Definition is_chain_event (e : Event) : bool :=
  match e with
  | BlockchainReceived _ => true
  | _ => false
  end.

(** ** States and relations the properties speak of *)

Implicit Types (m : Miner) (b tip : Block) (t : Transaction)
  (chain bs : list Block).

(** The entries [logChain] writes for [chain] when the miner's chain is
    [current]. *)
Definition logChain_entries (chain : list Block) (prefix : string)
    (current : list Block) : list LogEntry :=
  map (fun block => Line (String.append prefix (Block_toString block))) chain
  ++ [Dump chain;
      Line (String.append "Is chain valid: "
              (boolean_toString
                 (valid (Block_getVerificationMetadata current))))].

(** The miner after [pushNewBlock]. *)
Definition pushed m : Miner :=
  let chain' := blockchain m ++ [Block_createFrom (latestBlock m)] in
  set_logger
    (logger m ++ Line "Pushing new block onto blockchain:"
                 :: logChain_entries chain' "    " chain')
    (set_transaction_pool (transaction_pool m ++ [createNewCoin m])
       (set_blockchain chain' m)).

(** Peers are compared field by field. *)
Definition Node_eq_dec (x y : Node) : {x = y} + {x <> y}.
Proof.
  decide equality; [apply Z.eq_dec | apply string_dec].
Defined.

(** The four lines logged before the old tip is read. *)
Definition adoption_lines : list LogEntry :=
  [Line "Received new blockchain.";
   Line "Blockchain was longer than our current, verifying.";
   Line "Verification complete.";
   Line "Blockchain was valid, replacing current with:"].

(** The miner once [chain] is adopted over a tip staging [txs], before
    the new block is pushed. *)
Definition adopted chain (txs : list Transaction) m : Miner :=
  set_logger
    (logger m ++ adoption_lines ++ logChain_entries chain "    " chain)
    (set_transaction_map
       (vm_transaction_map (Block_getVerificationMetadata chain))
       (set_blockchain chain
          (set_transaction_pool (transaction_pool m ++ txs) m))).

(** The miner once [t] is accepted on the tip [tip]. *)
Definition committed_on t bs tip m : Miner :=
  set_blockchain (bs ++ [Block_addTransaction tip t])
    (set_transaction_map (Transaction_addToMap t (transaction_map m)) m).

(** A flush that starts from the transaction map [tm] and the tip [tip]
    and runs the callbacks in the order given: each transaction is judged
    by the validator against the map and the tip left by the callbacks
    before it; an accepted one is recorded in the map and added to the
    tip, a rejected one changes neither. *)
Inductive flushed :
  TxMap -> Block -> list Transaction ->
  TxMap -> Block -> list Transaction -> list Transaction -> Prop :=
| flushed_done tm tip :
    flushed tm tip [] tm tip [] []
| flushed_accept tm tip txs t rest tm' tip' accepted rejected :
    data tip = TxList txs ->
    Transaction_verify t tm (set_data (TxList (txs ++ [t])) tip) = true ->
    flushed (Transaction_addToMap t tm) (Block_addTransaction tip t) rest
      tm' tip' accepted rejected ->
    flushed tm tip (t :: rest) tm' tip' (t :: accepted) rejected
| flushed_reject tm tip txs t rest tm' tip' accepted rejected :
    data tip = TxList txs ->
    Transaction_verify t tm (set_data (TxList (txs ++ [t])) tip) = false ->
    flushed tm tip rest tm' tip' accepted rejected ->
    flushed tm tip (t :: rest) tm' tip' accepted (t :: rejected).

(** The miner when the synchronous part of a solving [computeHash]
    returns. *)
Definition solved_state m bs tip : Miner :=
  set_logger (logger m ++ [Line "Solved the hash problem."])
    (set_blockchain (bs ++ [set_nonce (js_increment (nonce tip)) tip]) m).

(** The exports of one solve, [started] of them: each is completed,
    opening or under way; there were no more of them than peers now
    listed; and once the promise is resolved none is pending. *)
Definition exports_accounted (started : nat) (cfg : Miner * Broadcast)
  : Prop :=
  (completed_exports (snd cfg) + List.length (connecting (snd cfg))
     + List.length (exporting (snd cfg)) = started)%nat /\
  (started <= List.length (node_list (fst cfg)))%nat /\
  (resolved (snd cfg) = true ->
   connecting (snd cfg) = [] /\ exporting (snd cfg) = []).

(** No chain comes in along the trace. *)
Definition no_chain_event (trace : list Event) : bool :=
  forallb (fun e => negb (is_chain_event e)) trace.

(** The line logged when the connection to a peer is established. *)
Definition sending_line (node : Node) : LogEntry :=
  Line (String.append "Sending blockchain to: "
          (String.append (address node)
             (String.append "::"
                (String.append (number_toString (node_port node)) ".")))).

(** C3 as worded: every transaction the flush adds to the tip block
    passes the validator against the transaction map and the tip block of
    before the flush. *)
Definition validated_against_preflush_state m order : Prop :=
  forall bs tip txs tip' added t,
    blockchain m = bs ++ [tip] ->
    data tip = TxList txs ->
    latestBlock (fst (run_flush order (set_transaction_pool [] m)))
      = Some tip' ->
    data tip' = TxList (txs ++ added) ->
    In t added ->
    Transaction_verify t (transaction_map m)
      (set_data (TxList (txs ++ [t])) tip) = true.

(** C4 as worded: after a solve by [m], whatever happens next, the chain
    has grown only once no export of the solve is opening or under way. *)
Definition chain_height_waits_for_exports m : Prop :=
  forall bc m1 trace m2 bc2,
    computeHash m = Ok (Exporting bc) m1 ->
    run trace (m1, bc) = Some (m2, bc2) ->
    (List.length (blockchain m1) < List.length (blockchain m2))%nat ->
    connecting bc2 = [] /\ exporting bc2 = [].

(** A call of [Transaction.create] credits a key when one of its outputs
    is owned by the key. *)
Definition credits (k : Key) (c : CreateCall) : Prop :=
  exists v, In (Output.make k v) (call_outputs c).

(** ** The constructor and the methods as calls *)

(** [new Miner(port, host, miner_public_key, miner_private_key,
    owner_public_key, logger)]: nothing pooled, no chain, no peer, not
    mining, nothing logged yet. *)
Definition new_Miner (p : Z) (h : string)
    (public_key private_key owner_key : Key) : Miner :=
  mkMiner [] empty_object [] [] p h [] false public_key private_key owner_key.

(** The methods and callbacks that run on a miner during its life:
    [createGenesisBlock] is left out, which the node calls through
    [createGenesisIfNeeded] only. *)
Inductive Call : Type :=
| CallAddNodes (nodes : list Node)
| CallAddTransactionToPool (t : Transaction)
| CallReceiveNewBlockchain (chain : list Block)
| CallCreateGenesisIfNeeded
| CallFlushTransactionPool
| CallFlushTransaction (t : Transaction)
| CallComputeHash
| CallConnectCallback (node : Node)
| CallPushNewBlock
| CallLogChain (chain : list Block) (prefix : string).

(** The miner after a call, returned or thrown. *)
Definition after_call (c : Call) (m : Miner) : Miner :=
  match c with
  | CallAddNodes nodes => final_state (addNodes nodes m)
  | CallAddTransactionToPool t => final_state (addTransactionToPool t m)
  | CallReceiveNewBlockchain chain =>
      final_state (receiveNewBlockchain chain m)
  | CallCreateGenesisIfNeeded => final_state (createGenesisIfNeeded m)
  | CallFlushTransactionPool => final_state (flushTransactionPool m)
  | CallFlushTransaction t => final_state (flushTransaction t m)
  | CallComputeHash => final_state (computeHash m)
  | CallConnectCallback node => final_state (connect_callback node m)
  | CallPushNewBlock => final_state (pushNewBlock m)
  | CallLogChain chain prefix => final_state (logChain chain prefix m)
  end.

Definition after_calls (calls : list Call) (m : Miner) : Miner :=
  fold_left (fun m c => after_call c m) calls m.

(** The transactions that come in along a trace, in order. *)
Definition received (trace : list Event) : list Transaction :=
  flat_map (fun e => match e with
                     | TransactionReceived t => [t]
                     | _ => []
                     end) trace.

(** What no method writes: the keys, the address, the mining toggle. *)
Definition same_identity m m' : Prop :=
  miner_public_key m' = miner_public_key m /\
  miner_private_key m' = miner_private_key m /\
  owner_public_key m' = owner_public_key m /\
  port m' = port m /\
  host m' = host m /\
  actively_mining m' = actively_mining m.

(** The blocks of a chain below its tip. *)
Definition below_tip (chain : list Block) : list Block :=
  firstn (List.length chain - 1) chain.

(** Two miners that differ at most in the transaction map and in the tip
    block. *)
Definition same_but_tip_and_map m m' : Prop :=
  transaction_pool m' = transaction_pool m /\
  node_list m' = node_list m /\
  logger m' = logger m /\
  same_identity m m' /\
  List.length (blockchain m') = List.length (blockchain m) /\
  below_tip (blockchain m') = below_tip (blockchain m).

(** The miner has no tip block, or one whose [data] is not an array. *)
Definition no_array_at_tip m : Prop :=
  match latestBlock m with
  | None => True
  | Some tip => exists s, data tip = Marker s
  end.

End MinerNode.

Arguments Marker {Transaction} s.
Arguments empty_object {Transaction TxMap BlockMeta TxInput TxType External}.
Arguments Block_create {Transaction TxMap BlockMeta TxInput TxType External} _.
Arguments Block_createFrom {Transaction TxMap BlockMeta TxInput TxType External} _.
Arguments Block_computeHash {Transaction TxMap BlockMeta TxInput TxType External} _.
Arguments Block_getVerificationMetadata {Transaction TxMap BlockMeta TxInput TxType External} _.
Arguments Block_addTransaction {Transaction TxMap BlockMeta TxInput TxType External} _.
Arguments Block_toString {Transaction TxMap BlockMeta TxInput TxType External} _.
Arguments Transaction_verify {Transaction TxMap BlockMeta TxInput TxType External} _.
Arguments Transaction_addToMap {Transaction TxMap BlockMeta TxInput TxType External} _.
Arguments Transaction_create {Transaction TxMap BlockMeta TxInput TxType External} _.
Arguments NEW_COIN {Transaction TxMap BlockMeta TxInput TxType External}.
Arguments Line {Transaction BlockMeta} s.
Arguments adoption_lines {Transaction BlockMeta}.
Arguments sending_line {Transaction BlockMeta} node.
Arguments Connected {Transaction BlockMeta} i.
Arguments Exported {Transaction BlockMeta} i.
Arguments NodesAdded {Transaction BlockMeta} nodes.
Arguments TransactionReceived {Transaction BlockMeta} t.
Arguments BlockchainReceived {Transaction BlockMeta} chain.
Arguments data_pop {Transaction TxMap BlockMeta} _.
Arguments CallAddNodes {Transaction BlockMeta} nodes.
Arguments CallAddTransactionToPool {Transaction BlockMeta} t.
Arguments CallReceiveNewBlockchain {Transaction BlockMeta} chain.
Arguments CallFlushTransaction {Transaction BlockMeta} t.
Arguments CallLogChain {Transaction BlockMeta} chain prefix.
Arguments CallCreateGenesisIfNeeded {Transaction BlockMeta}.
Arguments CallFlushTransactionPool {Transaction BlockMeta}.
Arguments CallComputeHash {Transaction BlockMeta}.
Arguments CallConnectCallback {Transaction BlockMeta} node.
Arguments CallPushNewBlock {Transaction BlockMeta}.

(** ** A small block and transaction library

    One implementation of [External], on which the methods are run on
    concrete miners.  A transfer has a name and lists the transfers whose
    outputs it spends; it is acceptable when it is not committed yet and
    everything it spends is. *)
Module Sample.

Inductive transaction : Type :=
| Transfer (id : nat) (spends : list nat)
| Created (public_key : Key) (inputs : list nat)
          (outputs : list Output.t) (type : string).

Definition block : Type := Block transaction string.
Definition miner : Type := Miner transaction (list nat) string.

Definition committed (id : nat) (tm : list nat) : bool :=
  existsb (Nat.eqb id) tm.

Definition acceptable (t : transaction) (tm : list nat) (b : block) : bool :=
  match t with
  | Transfer id spends =>
      negb (committed id tm) && forallb (fun s => committed s tm) spends
  | Created _ _ _ _ => true
  end.

Definition record (t : transaction) (tm : list nat) : list nat :=
  match t with
  | Transfer id _ => id :: tm
  | Created _ _ _ _ => tm
  end.

Definition stage (b : block) (t : transaction) : block :=
  match data b with
  | TxList txs => set_data (TxList (txs ++ [t])) b
  | Marker _ => b
  end.

Definition next_block (previous : option block) : block :=
  mkBlock (TxList [])
    0 (match previous with Some b => String.append (meta b) "'" | None => "" end).

(** One nonce in three solves a block. *)
Definition hash (b : block) : string :=
  if nonce b mod 3 =? 0 then "000c7a" else "9d41f0".

Definition block_ids (b : block) : list nat :=
  match data b with
  | TxList txs =>
      flat_map (fun t => match t with
                         | Transfer id _ => [id]
                         | Created _ _ _ _ => []
                         end) txs
  | Marker _ => []
  end.

Definition verification (chain : list block)
  : VerificationMetadata (list nat) :=
  mkVerification
    (forallb (fun b => negb (String.eqb (meta b) "forged")) chain)
    (flat_map block_ids chain).

#[global] Instance library : External transaction (list nat) string nat string := {
  empty_object := [];
  Block_create := fun s => mkBlock (Marker s) 0 "g";
  Block_createFrom := next_block;
  Block_computeHash := hash;
  Block_getVerificationMetadata := verification;
  Block_addTransaction := stage;
  Block_toString := fun b => meta b;
  Transaction_verify := acceptable;
  Transaction_addToMap := record;
  Transaction_create := fun pk _ inputs outputs type =>
                          Created pk inputs outputs type;
  NEW_COIN := "NEW_COIN"
}.

Definition A : transaction := Transfer 1 [].
Definition B : transaction := Transfer 2 [1%nat].
Definition C : transaction := Transfer 3 [9%nat].

Definition peer1 : Node := mkNode "196.24.185.115" 1337.
Definition peer2 : Node := mkNode "196.24.185.115" 1338.

Definition genesis : block := mkBlock (Marker "GENESIS") 0 "g".
Definition block1 : block := mkBlock (TxList [A]) 2 "g'".
Definition block2 : block := mkBlock (TxList []) 0 "g''".

(** A miner as the constructor leaves it: everything empty, not
    mining. *)
Definition fresh : miner :=
  mkMiner [] [] [] [] 1337 "196.24.185.115" [] false "M-public" "M-private"
    "O-public".

(** A mining node two blocks in, with two peers and two pooled
    transactions; its next nonce solves the hash. *)
Definition busy : miner :=
  mkMiner [B; C] [1%nat] [genesis; block1] [peer1; peer2] 1337
    "196.24.185.115" [] true "M-public" "M-private" "O-public".

(** The same node without peers. *)
Definition solo : miner := set_node_list [] busy.

(** A mining node on a tip block that stages nothing yet, with [A] and
    [B] pooled; its next nonce does not solve the hash. *)
Definition started : miner :=
  mkMiner [A; B] [] [genesis; block2] [peer1] 1337 "196.24.185.115" [] true
    "M-public" "M-private" "O-public".

(** A node that has its genesis block only, with [A] and [B] pooled. *)
Definition bootstrapped : miner :=
  mkMiner [A; B] [] [genesis] [peer1] 1337 "196.24.185.115" [] true
    "M-public" "M-private" "O-public".

(** Both connections established, both exports finishing, a transaction
    coming in between. *)
Definition deliveries : list (Event transaction string) :=
  [Connected 1; Connected 0; Exported 0; TransactionReceived C; Exported 0].

(** One connection established, then a longer valid chain coming in. *)
Definition overtaken : list (Event transaction string) :=
  [Connected 0; BlockchainReceived [genesis; block1; block2]].

(** A transaction coming in, then a peer being added. *)
Definition late_peer : list (Event transaction string) :=
  [TransactionReceived C; NodesAdded [peer1]].

End Sample.

(** * Properties *)

Unset Implicit Arguments.

Section Properties.

Context {Transaction TxMap BlockMeta TxInput TxType : Type}.
Context {X : External Transaction TxMap BlockMeta TxInput TxType}.

Abbreviation Miner := (Miner Transaction TxMap BlockMeta).
Abbreviation Block := (Block Transaction BlockMeta).
Abbreviation M := (M Transaction TxMap BlockMeta).

Implicit Types (m : Miner) (b tip : Block) (t : Transaction)
  (chain bs : list Block).

(** Unfolds the monad, so that a method applied to a state computes. *)
Ltac monad :=
  unfold log, console_log; unfold bind, get, modify, ret, throw;
  cbv beta iota.

(** Reads fields through field updates. *)
Ltac fields :=
  cbn [blockchain set_blockchain transaction_map set_transaction_map
       transaction_pool set_transaction_pool logger set_logger
       node_list set_node_list port host actively_mining miner_public_key
       miner_private_key owner_public_key].

(** ** Lists and the tip of the chain *)

Lemma update_at_last {A} (f : A -> A) (l : list A) (x : A) :
  update_at (List.length (l ++ [x]) - 1) f (l ++ [x]) = l ++ [f x].
Proof.
  induction l as [|y l IH]; [reflexivity|].
  cbn [app List.length].
  rewrite length_app in *. cbn [List.length] in *.
  replace (S (List.length l + 1) - 1)%nat with (S (List.length l + 1 - 1))
    by lia.
  destruct l; cbn [update_at app]; [reflexivity|].
  f_equal. exact IH.
Qed.

Lemma latestBlock_last m bs tip :
  blockchain m = bs ++ [tip] -> latestBlock m = Some tip.
Proof.
  intros E. unfold latestBlock. rewrite E, length_app. cbn [List.length].
  rewrite nth_error_app2 by lia.
  replace (List.length bs + 1 - 1 - List.length bs)%nat with 0%nat by lia.
  reflexivity.
Qed.

Lemma latestBlock_empty m : blockchain m = [] -> latestBlock m = None.
Proof. intros E. unfold latestBlock. rewrite E. reflexivity. Qed.

Lemma update_latest_last (f : Block -> Block) m bs tip :
  blockchain m = bs ++ [tip] ->
  update_latest f m = set_blockchain (bs ++ [f tip]) m.
Proof.
  intros E. unfold update_latest. rewrite E, update_at_last. reflexivity.
Qed.

Lemma theLatestBlock_last m bs tip :
  blockchain m = bs ++ [tip] -> theLatestBlock m = Ok tip m.
Proof.
  intros E. unfold theLatestBlock. monad.
  rewrite (latestBlock_last _ _ _ E). reflexivity.
Qed.

Lemma list_empty_or_last {A} (l : list A) :
  l = [] \/ exists front x, l = front ++ [x].
Proof.
  destruct l as [|a l]; [now left|]. right.
  destruct (exists_last (l := a :: l)) as (front & x & E);
    [discriminate | eauto].
Qed.

(** ** JavaScript numbers *)

Lemma js_increment_exact (n : Z) :
  Z.abs n < 2 ^ 53 -> js_increment n = n + 1.
Proof.
  intros H. unfold js_increment, round_to_double.
  change (2 ^ 53) with 9007199254740992 in *.
  destruct (Z.leb_spec (Z.abs (n + 1)) 9007199254740992); lia.
Qed.

(** At [2^53] the increment is lost: the next integer is not a double. *)
Lemma js_increment_stuck : js_increment (2 ^ 53) = 2 ^ 53.
Proof. reflexivity. Qed.

(** ** What is logged *)

Lemma set_logger_same m : set_logger (logger m) m = m.
Proof. now destruct m. Qed.

Lemma forEach_log {A} (f : A -> string) (l : list A) m :
  forEach l (fun x => log (f x)) m =
  Ok tt (set_logger (logger m ++ map (fun x => Line (f x)) l) m).
Proof.
  revert m. induction l as [|x l IH]; intros m; cbn [forEach map].
  - unfold ret. now rewrite app_nil_r, set_logger_same.
  - unfold bind. unfold log at 1. unfold modify. rewrite IH.
    cbn [logger set_logger]. now rewrite <- app_assoc.
Qed.

Lemma logChain_eq chain prefix m :
  logChain chain prefix m =
  Ok tt (set_logger
           (logger m ++ logChain_entries chain prefix (blockchain m)) m).
Proof.
  unfold logChain, logChain_entries. unfold bind at 1.
  rewrite forEach_log. monad. cbn [logger set_logger blockchain].
  now rewrite <- !app_assoc.
Qed.

Lemma forEach_addTransactionToPool (txs : list Transaction) m :
  forEach txs (@addTransactionToPool Transaction TxMap BlockMeta) m =
  Ok tt (set_transaction_pool (transaction_pool m ++ txs) m).
Proof.
  revert m. induction txs as [|t txs IH]; intros m; cbn [forEach].
  - unfold ret. rewrite app_nil_r. now destruct m.
  - unfold bind, addTransactionToPool, modify. rewrite IH.
    cbn [transaction_pool set_transaction_pool].
    now rewrite <- app_assoc.
Qed.

Lemma pushNewBlock_eq m : pushNewBlock m = Ok tt (pushed m).
Proof.
  unfold pushNewBlock, addTransactionToPool. monad.
  rewrite logChain_eq. unfold pushed.
  cbn [logger set_logger blockchain set_blockchain transaction_pool
       set_transaction_pool].
  now rewrite <- app_assoc.
Qed.

(** ** The peer registry *)

Lemma same_endpoint_fields (node other : Node) :
  same_endpoint node other = true <->
  address node = address other /\ node_port node = node_port other.
Proof.
  unfold same_endpoint.
  rewrite andb_true_iff, String.eqb_eq, Z.eqb_eq. reflexivity.
Qed.

Lemma same_endpoint_eq (node other : Node) :
  same_endpoint node other = true <-> node = other.
Proof.
  rewrite same_endpoint_fields.
  destruct node as [a p], other as [a' p']; cbn [address node_port].
  split; [intros [-> ->]; reflexivity | intros E; inversion E; auto].
Qed.

Lemma already_in_list_existsb (node : Node) (l : list Node) :
  already_in_list node l = existsb (same_endpoint node) l.
Proof.
  unfold already_in_list.
  assert (G : forall flag,
    fold_left (fun flag our_node =>
                 if same_endpoint node our_node then true else flag) l flag
    = flag || existsb (same_endpoint node) l).
  { induction l as [|n l IH]; intros flag; cbn [fold_left existsb].
    - now rewrite orb_false_r.
    - rewrite IH. destruct (same_endpoint node n), flag; reflexivity. }
  apply G.
Qed.

Lemma already_in_list_In (node : Node) (l : list Node) :
  already_in_list node l = true <-> In node l.
Proof.
  rewrite already_in_list_existsb, existsb_exists. split.
  - intros [n [Hin E]]. apply same_endpoint_eq in E. now subst.
  - intros Hin. exists node. split; [exact Hin | now apply same_endpoint_eq].
Qed.

Lemma addNodes_one (node : Node) m :
  addNodes [node] m =
  Ok tt (if already_in_list node (node_list m) then m
         else set_node_list (node_list m ++ [node]) m).
Proof.
  unfold addNodes. cbn [forEach]. monad.
  destruct (already_in_list node (node_list m)); reflexivity.
Qed.

Lemma addNodes_cons (node : Node) (nodes : list Node) m m1 :
  addNodes [node] m = Ok tt m1 ->
  addNodes (node :: nodes) m = addNodes nodes m1.
Proof.
  unfold addNodes. cbn [forEach]. monad.
  destruct (negb (already_in_list node (node_list m)));
    intros E; inversion E; reflexivity.
Qed.

(** [addNodes] never throws and only appends to [node_list]. *)
Lemma addNodes_appends (nodes : list Node) m :
  exists m' added,
    addNodes nodes m = Ok tt m' /\
    node_list m' = node_list m ++ added /\
    m' = set_node_list (node_list m') m.
Proof.
  revert m. induction nodes as [|node nodes IH]; intros m.
  - exists m, []. rewrite app_nil_r. repeat split. now destruct m.
  - rewrite (addNodes_cons node nodes m _ (addNodes_one node m)).
    destruct (already_in_list node (node_list m)).
    + apply IH.
    + destruct (IH (set_node_list (node_list m ++ [node]) m))
        as (m' & added & E & L & S).
      exists m', (node :: added). split; [exact E|].
      cbn [node_list set_node_list] in L. rewrite <- app_assoc in L.
      split; [exact L|]. rewrite S at 1. reflexivity.
Qed.

(** A registry without duplicates stays so: every list built from the
    constructor's empty [node_list] by [addNodes] has none. *)
Lemma addNodes_NoDup (nodes : list Node) m :
  NoDup (node_list m) -> NoDup (node_list (final_state (addNodes nodes m))).
Proof.
  revert m. induction nodes as [|node nodes IH]; intros m ND.
  - exact ND.
  - rewrite (addNodes_cons node nodes m _ (addNodes_one node m)).
    apply IH.
    destruct (already_in_list node (node_list m)) eqn:E; [exact ND|].
    cbn [node_list set_node_list].
    apply NoDup_app; [exact ND | repeat constructor; intros [] | ].
    intros x Hx [<- | []]. apply already_in_list_In in Hx. congruence.
Qed.

(** C9.  Peer insertion is idempotent by value.  [addNodes] appends a peer
    exactly when no listed peer has the same address and the same port
    (a comparison of the two fields, not of object identity); adding the
    pair a second time changes nothing, so the pair has as many entries as
    before, or one when it had none; in a registry without duplicates,
    such as every registry built by [addNodes] from the empty one, the
    pair then has exactly one entry. *)
Theorem addNodes_idempotent_by_value (node : Node) m :
  exists m1,
    addNodes [node] m = Ok tt m1 /\
    node_list m1 =
      (if existsb (same_endpoint node) (node_list m)
       then node_list m else node_list m ++ [node]) /\
    (forall other,
       same_endpoint node other = true <->
       address node = address other /\ node_port node = node_port other) /\
    addNodes [node] m1 = Ok tt m1 /\
    addNodes [node; node] m = Ok tt m1 /\
    count_occ Node_eq_dec (node_list m1) node =
      Nat.max 1 (count_occ Node_eq_dec (node_list m) node) /\
    (NoDup (node_list m) ->
     NoDup (node_list m1) /\
     count_occ Node_eq_dec (node_list m1) node = 1%nat).
Proof.
  pose proof (addNodes_one node m) as E1.
  pose proof (addNodes_NoDup [node] m) as ND1.
  rewrite E1 in ND1. cbn [final_state] in ND1.
  set (m1 := if already_in_list node (node_list m) then m
             else set_node_list (node_list m ++ [node]) m) in *.
  assert (Hin : already_in_list node (node_list m1) = true).
  { subst m1. destruct (already_in_list node (node_list m)) eqn:E;
      [exact E|].
    apply already_in_list_In. cbn [node_list set_node_list].
    apply in_or_app. right. now left. }
  assert (E2 : addNodes [node] m1 = Ok tt m1).
  { rewrite addNodes_one, Hin. reflexivity. }
  assert (Count : count_occ Node_eq_dec (node_list m1) node =
                  Nat.max 1 (count_occ Node_eq_dec (node_list m) node)).
  { subst m1. destruct (already_in_list node (node_list m)) eqn:E.
    - apply already_in_list_In, (count_occ_In Node_eq_dec) in E. lia.
    - assert (~ In node (node_list m)) as Out
        by (rewrite <- already_in_list_In; congruence).
      apply (count_occ_not_In Node_eq_dec) in Out.
      cbn [node_list set_node_list]. rewrite count_occ_app, Out.
      cbn [count_occ]. destruct (Node_eq_dec node node); [reflexivity|].
      congruence. }
  exists m1.
  split; [exact E1|].
  split.
  { rewrite <- already_in_list_existsb. subst m1.
    destruct (already_in_list node (node_list m)); reflexivity. }
  split; [intros other; apply same_endpoint_fields|].
  split; [exact E2|].
  split; [rewrite (addNodes_cons node [node] m m1 E1); exact E2|].
  split; [exact Count|].
  intros ND. split; [exact (ND1 ND)|].
  rewrite Count.
  pose proof (proj1 (NoDup_count_occ Node_eq_dec (node_list m)) ND node).
  lia.
Qed.

(** ** Genesis *)

(** C6.  Genesis bootstrap is idempotent.  [createGenesisIfNeeded] on an
    empty chain leaves a chain of exactly one block, the genesis block,
    and the empty transaction index; on a non-empty chain it changes
    nothing; so a second run after any first run changes nothing. *)
Theorem createGenesisIfNeeded_idempotent m :
  exists m1,
    createGenesisIfNeeded m = Ok tt m1 /\
    createGenesisIfNeeded m1 = Ok tt m1 /\
    match blockchain m with
    | [] =>
        m1 = set_transaction_map empty_object
               (set_blockchain [Block_create "GENESIS"] m) /\
        blockchain m1 = [Block_create "GENESIS"] /\
        transaction_map m1 = empty_object
    | _ :: _ => m1 = m
    end.
Proof.
  unfold createGenesisIfNeeded, createGenesisBlock. monad.
  destruct (blockchain m) as [|b0 bs] eqn:E; cbn [List.length Nat.eqb].
  - eexists. split; [reflexivity|]. cbn. repeat split.
  - exists m. rewrite E. cbn [List.length Nat.eqb]. repeat split.
Qed.

(** ** The new coin *)

(** C8, as the code has it.  Every new-coin transaction is created by
    [createNewCoin], from the miner's own key pair, with no input and one
    output: the value 1 for the key [miner_public_key], and with the type
    [NEW_COIN]; it is the transaction [pushNewBlock] appends to the pool.
    The field [owner_public_key] of the miner is not read: another owner
    key gives the same call of [Transaction.create]. *)
Theorem createNewCoin_credits_miner_public_key m :
  createNewCoin m =
    Transaction_create (miner_public_key m) (miner_private_key m) []
      [Output.make (miner_public_key m) 1] NEW_COIN /\
  call_outputs (createNewCoin_call m) = [Output.make (miner_public_key m) 1] /\
  credits (miner_public_key m) (createNewCoin_call m) /\
  (forall k, credits k (createNewCoin_call m) -> k = miner_public_key m) /\
  call_inputs (createNewCoin_call m) = [] /\
  call_type (createNewCoin_call m) = NEW_COIN /\
  (exists m',
     pushNewBlock m = Ok tt m' /\
     transaction_pool m' = transaction_pool m ++ [createNewCoin m]) /\
  (forall owner,
     createNewCoin_call
       (mkMiner (transaction_pool m) (transaction_map m) (blockchain m)
          (node_list m) (port m) (host m) (logger m) (actively_mining m)
          (miner_public_key m) (miner_private_key m) owner)
     = createNewCoin_call m).
Proof.
  split; [reflexivity|]. split; [reflexivity|].
  split; [exists 1; now left|].
  split.
  { intros k [v [H | []]]. now inversion H. }
  split; [reflexivity|]. split; [reflexivity|].
  split; [|reflexivity].
  exists (pushed m). split; [apply pushNewBlock_eq | reflexivity].
Qed.

(** ** The hashing step *)

(** C7.  When the node is not mining, [computeHash] changes nothing and
    returns the promise of [Util.delay(100)].  When it is mining and the
    hash of the tip block, taken after the increment, does not start with
    ["000"], the promise is resolved at once and the state differs only
    in the nonce of the tip block, which is one more than before (the
    nonce being an integer below [2^53] in absolute value, where the
    addition of JavaScript numbers is exact). *)
Theorem computeHash_idle_or_unsolved m :
  (actively_mining m = false -> computeHash m = Ok (Delayed 100) m) /\
  (forall bs tip,
     actively_mining m = true ->
     blockchain m = bs ++ [tip] ->
     Z.abs (nonce tip) < 2 ^ 53 ->
     String.prefix "000"
       (Block_computeHash (set_nonce (nonce tip + 1) tip)) = false ->
     computeHash m =
       Ok Resolved (set_blockchain (bs ++ [set_nonce (nonce tip + 1) tip]) m)).
Proof.
  split.
  - intros Idle. unfold computeHash. monad. now rewrite Idle.
  - intros bs tip Mining E Safe Unsolved.
    unfold computeHash. monad. rewrite Mining. cbn [negb].
    rewrite (theLatestBlock_last m bs tip E). cbv beta iota.
    rewrite (update_latest_last _ m bs tip E).
    rewrite (js_increment_exact _ Safe).
    erewrite theLatestBlock_last by reflexivity. cbv beta iota.
    now rewrite Unsolved.
Qed.

(** ** Chain replacement *)

Lemma receiveNewBlockchain_not_longer chain m :
  (List.length chain <= List.length (blockchain m))%nat ->
  receiveNewBlockchain chain m =
  Ok tt (set_logger
           (logger m ++
            [Line "Received new blockchain.";
             Line "Blockchain not longer than current - ignoring."]) m).
Proof.
  intros Short. unfold receiveNewBlockchain. monad.
  cbn [blockchain set_logger logger].
  destruct (Nat.ltb_spec (List.length (blockchain m)) (List.length chain));
    [lia|].
  fields. now rewrite <- app_assoc.
Qed.

Lemma receiveNewBlockchain_invalid chain m :
  (List.length (blockchain m) < List.length chain)%nat ->
  valid (Block_getVerificationMetadata chain) = false ->
  receiveNewBlockchain chain m =
  Ok tt (set_logger
           (logger m ++
            [Line "Received new blockchain.";
             Line "Blockchain was longer than our current, verifying.";
             Line "Verification complete.";
             Line "Blockchain was invalid - ignoring.";
             Line "Invalid blockchain:"]
            ++ logChain_entries chain "    " (blockchain m)) m).
Proof.
  intros Long Invalid. unfold receiveNewBlockchain. monad.
  cbn [blockchain set_logger logger].
  destruct (Nat.ltb_spec (List.length (blockchain m)) (List.length chain));
    [|lia].
  rewrite Invalid, logChain_eq. fields. now rewrite <- !app_assoc.
Qed.

Lemma receiveNewBlockchain_empty_chain chain m :
  blockchain m = [] ->
  chain <> [] ->
  valid (Block_getVerificationMetadata chain) = true ->
  receiveNewBlockchain chain m =
  Throw unit (TypeError "Cannot read properties of undefined")
    (set_logger (logger m ++ adoption_lines) m).
Proof.
  intros Empty Nonempty Valid. unfold receiveNewBlockchain. monad.
  cbn [blockchain set_logger logger]. rewrite Empty.
  destruct chain as [|b0 chain]; [congruence|]. cbn [List.length Nat.ltb Nat.leb].
  rewrite Valid. unfold requeue_latest_data, theLatestBlock. monad.
  rewrite latestBlock_empty by (cbn; exact Empty).
  fields. now rewrite <- !app_assoc.
Qed.

Lemma receiveNewBlockchain_adopts chain m bs tip txs :
  blockchain m = bs ++ [tip] ->
  data tip = TxList txs ->
  (List.length (blockchain m) < List.length chain)%nat ->
  valid (Block_getVerificationMetadata chain) = true ->
  receiveNewBlockchain chain m = Ok tt (pushed (adopted chain txs m)).
Proof.
  intros E D Long Valid. unfold receiveNewBlockchain. monad.
  cbn [blockchain set_logger logger].
  destruct (Nat.ltb_spec (List.length (blockchain m)) (List.length chain));
    [|lia].
  rewrite Valid. unfold requeue_latest_data. unfold bind at 1.
  erewrite theLatestBlock_last by (cbn; exact E).
  rewrite D, forEach_addTransactionToPool. monad. fields.
  rewrite logChain_eq, pushNewBlock_eq.
  unfold adopted, adoption_lines. fields.
  do 2 f_equal. now rewrite <- !app_assoc.
Qed.

Lemma receiveNewBlockchain_marker chain m bs tip s :
  blockchain m = bs ++ [tip] ->
  data tip = Marker s ->
  (List.length (blockchain m) < List.length chain)%nat ->
  valid (Block_getVerificationMetadata chain) = true ->
  receiveNewBlockchain chain m =
  Throw unit (TypeError "data.map is not a function")
    (set_logger (logger m ++ adoption_lines) m).
Proof.
  intros E D Long Valid. unfold receiveNewBlockchain. monad.
  cbn [blockchain set_logger logger].
  destruct (Nat.ltb_spec (List.length (blockchain m)) (List.length chain));
    [|lia].
  rewrite Valid. unfold requeue_latest_data. monad.
  erewrite theLatestBlock_last by (cbn; exact E).
  rewrite D. cbv beta iota. fields. now rewrite <- !app_assoc.
Qed.

(** A chain that comes in never changes [node_list]. *)
Lemma receiveNewBlockchain_node_list chain m :
  node_list (final_state (receiveNewBlockchain chain m)) = node_list m.
Proof.
  destruct (Nat.le_gt_cases (List.length chain) (List.length (blockchain m)))
    as [Short | Long].
  { now rewrite receiveNewBlockchain_not_longer. }
  destruct (valid (Block_getVerificationMetadata chain)) eqn:V.
  2: { now rewrite receiveNewBlockchain_invalid. }
  destruct (list_empty_or_last (blockchain m)) as [E | (bs & tip & E)].
  { rewrite receiveNewBlockchain_empty_chain; [reflexivity | exact E | | exact V].
    intros ->. cbn in Long. lia. }
  destruct (data tip) as [s | txs] eqn:D.
  - now rewrite (receiveNewBlockchain_marker chain m bs tip s).
  - now rewrite (receiveNewBlockchain_adopts chain m bs tip txs).
Qed.

(** A replacement that goes through found a tip block staging a list of
    transactions. *)
Lemma receiveNewBlockchain_adopted_over_tip chain m m' :
  (List.length (blockchain m) < List.length chain)%nat ->
  valid (Block_getVerificationMetadata chain) = true ->
  receiveNewBlockchain chain m = Ok tt m' ->
  exists bs tip txs, blockchain m = bs ++ [tip] /\ data tip = TxList txs.
Proof.
  intros Long Valid Returned.
  destruct (list_empty_or_last (blockchain m)) as [E | (bs & tip & E)].
  - rewrite receiveNewBlockchain_empty_chain in Returned;
      [discriminate | exact E | | exact Valid].
    intros ->. cbn in Long. lia.
  - destruct (data tip) as [s | txs] eqn:D; [|eauto].
    rewrite (receiveNewBlockchain_marker chain m bs tip s E D Long Valid)
      in Returned.
    discriminate.
Qed.

(** C1.  [receiveNewBlockchain] adopts the candidate only if it is
    strictly longer than the current chain and
    [Block.getVerificationMetadata] finds it valid.  When the candidate is
    not longer (equal length included) or is not valid, the handler
    returns and the miner is what it was, log apart: same chain, same
    transaction map, same pool.  Conversely the chain or the transaction
    map differ after the call, however it ends, only if the candidate was
    longer and valid. *)
Theorem receiveNewBlockchain_rejects chain m :
  ((List.length chain <= List.length (blockchain m))%nat \/
   valid (Block_getVerificationMetadata chain) = false ->
   exists m',
     receiveNewBlockchain chain m = Ok tt m' /\
     same_but_log m m' /\
     blockchain m' = blockchain m /\
     transaction_map m' = transaction_map m /\
     transaction_pool m' = transaction_pool m) /\
  (blockchain (final_state (receiveNewBlockchain chain m)) <> blockchain m \/
   transaction_map (final_state (receiveNewBlockchain chain m))
     <> transaction_map m ->
   (List.length (blockchain m) < List.length chain)%nat /\
   valid (Block_getVerificationMetadata chain) = true).
Proof.
  assert (R : (List.length chain <= List.length (blockchain m))%nat \/
              valid (Block_getVerificationMetadata chain) = false ->
              exists l, receiveNewBlockchain chain m = Ok tt (set_logger l m)).
  { intros [Short | Invalid].
    - eexists. now apply receiveNewBlockchain_not_longer.
    - destruct (Nat.le_gt_cases (List.length chain)
                  (List.length (blockchain m))) as [Short | Long].
      + eexists. now apply receiveNewBlockchain_not_longer.
      + eexists. now apply receiveNewBlockchain_invalid. }
  split.
  - intros Reject. destruct (R Reject) as [l E].
    exists (set_logger l m). repeat split. exact E.
  - intros Changed.
    destruct (Nat.le_gt_cases (List.length chain)
                (List.length (blockchain m))) as [Short | Long].
    + destruct (R (or_introl Short)) as [l E]. rewrite E in Changed.
      cbn in Changed. destruct Changed; congruence.
    + split; [exact Long|].
      apply not_false_is_true. intros V.
      destruct (R (or_intror V)) as [l E]. rewrite E in Changed.
      cbn in Changed. destruct Changed; congruence.
Qed.

(** C2.  When the candidate is strictly longer and valid and the old tip
    block stages the transactions [txs], [receiveNewBlockchain] returns
    with: the pool extended by [txs] (each of them is in the pool again)
    and then by one new coin; the candidate as chain, followed by one
    block created from the candidate's last block, so one block longer
    than the candidate; and the candidate's transaction map. *)
Theorem receiveNewBlockchain_requeues_and_pushes chain m bs tip txs :
  blockchain m = bs ++ [tip] ->
  data tip = TxList txs ->
  (List.length (blockchain m) < List.length chain)%nat ->
  valid (Block_getVerificationMetadata chain) = true ->
  exists m',
    receiveNewBlockchain chain m = Ok tt m' /\
    transaction_pool m' = transaction_pool m ++ txs ++ [createNewCoin m] /\
    (forall t, In t txs -> In t (transaction_pool m')) /\
    blockchain m' =
      chain ++ [Block_createFrom (nth_error chain (List.length chain - 1))] /\
    List.length (blockchain m') = S (List.length chain) /\
    transaction_map m' =
      vm_transaction_map (Block_getVerificationMetadata chain) /\
    node_list m' = node_list m.
Proof.
  intros E D Long Valid.
  exists (pushed (adopted chain txs m)).
  split; [now apply (receiveNewBlockchain_adopts chain m bs tip txs)|].
  unfold pushed, adopted, latestBlock. fields.
  split; [now rewrite <- app_assoc|].
  split.
  { intros t Hin. apply in_or_app. left. apply in_or_app. now right. }
  split; [reflexivity|].
  split; [rewrite length_app; cbn [List.length]; lia|].
  split; reflexivity.
Qed.

(** C10.  On an empty current chain, a candidate of at least one block
    that [Block.getVerificationMetadata] finds valid makes
    [receiveNewBlockchain] throw a [TypeError], at the read of [data] on
    the [undefined] that [latestBlock] returns; the candidate is not
    adopted: the miner is what it was, log apart, its chain still
    empty. *)
Theorem receiveNewBlockchain_throws_on_empty_chain chain m :
  blockchain m = [] ->
  (1 <= List.length chain)%nat ->
  valid (Block_getVerificationMetadata chain) = true ->
  latestBlock m = None /\
  exists m',
    receiveNewBlockchain chain m =
      Throw unit (TypeError "Cannot read properties of undefined") m' /\
    same_but_log m m' /\
    blockchain m' = [] /\
    transaction_map m' = transaction_map m.
Proof.
  intros Empty Len Valid.
  split; [now apply latestBlock_empty|].
  eexists. split.
  - apply receiveNewBlockchain_empty_chain; [exact Empty| |exact Valid].
    destruct chain; [cbn in Len; lia | discriminate].
  - repeat split. exact Empty.
Qed.

(** ** The pool flush *)

(** One callback: the validator sees the transaction map of the moment
    and the tip of the moment with [t] appended; the tentative append is
    undone; [t] is recorded and added only when accepted. *)
Lemma flushTransaction_eq t m bs tip txs :
  blockchain m = bs ++ [tip] ->
  data tip = TxList txs ->
  flushTransaction t m =
  Ok tt (if Transaction_verify t (transaction_map m)
              (set_data (TxList (txs ++ [t])) tip)
         then committed_on t bs tip m
         else m).
Proof.
  intros E D. unfold flushTransaction, data_push, data_pop. monad.
  rewrite (theLatestBlock_last m bs tip E), D. cbv beta iota.
  rewrite (update_latest_last _ m bs tip E).
  erewrite theLatestBlock_last by reflexivity. cbv beta iota.
  erewrite theLatestBlock_last by reflexivity.
  cbn [data set_data]. cbv beta iota.
  erewrite update_latest_last by reflexivity.
  rewrite removelast_last.
  replace (set_data (TxList txs) (set_data (TxList (txs ++ [t])) tip))
    with tip by (destruct tip; cbn in D; now subst).
  replace (set_blockchain (bs ++ [tip]) (set_blockchain _ m))
    with m by (rewrite <- E; now destruct m).
  change (transaction_map (set_blockchain _ m)) with (transaction_map m).
  destruct (Transaction_verify t (transaction_map m)
              (set_data (TxList (txs ++ [t])) tip)); [|reflexivity].
  erewrite theLatestBlock_last by (fields; exact E). cbv beta iota.
  erewrite update_latest_last by (fields; exact E). reflexivity.
Qed.

Lemma flushed_partition tm tip order tm' tip' accepted rejected :
  flushed tm tip order tm' tip' accepted rejected ->
  Permutation (accepted ++ rejected) order.
Proof.
  induction 1 as [| ? ? ? ? ? ? ? ? ? _ _ _ IH | ? ? ? ? ? ? ? ? ? _ _ _ IH].
  - constructor.
  - cbn [app]. now constructor.
  - symmetry. apply Permutation_cons_app. now symmetry.
Qed.

Lemma run_flush_flushed order :
  (forall b t l, data b = TxList l ->
                 data (Block_addTransaction b t) = TxList (l ++ [t])) ->
  forall m bs tip txs,
    blockchain m = bs ++ [tip] ->
    data tip = TxList txs ->
    exists tm' tip' accepted rejected,
      run_flush order m =
        (set_transaction_map tm' (set_blockchain (bs ++ [tip']) m), []) /\
      flushed (transaction_map m) tip order tm' tip' accepted rejected /\
      data tip' = TxList (txs ++ accepted).
Proof.
  intros Appends.
  induction order as [|t rest IH]; intros m bs tip txs E D.
  - exists (transaction_map m), tip, [], []. cbn [run_flush].
    rewrite <- E, app_nil_r. repeat split; [now destruct m | constructor | exact D].
  - cbn [run_flush]. rewrite (flushTransaction_eq t m bs tip txs E D).
    destruct (Transaction_verify t (transaction_map m)
                (set_data (TxList (txs ++ [t])) tip)) eqn:V.
    + destruct (IH (committed_on t bs tip m) bs (Block_addTransaction tip t)
                  (txs ++ [t]) eq_refl (Appends _ _ _ D))
        as (tm' & tip' & accepted & rejected & R & F & D').
      exists tm', tip', (t :: accepted), rejected.
      rewrite R. repeat split.
      * eapply flushed_accept; eauto.
      * rewrite D', <- app_assoc. reflexivity.
    + destruct (IH m bs tip txs E D)
        as (tm' & tip' & accepted & rejected & R & F & D').
      exists tm', tip', accepted, (t :: rejected).
      rewrite R. repeat split; [|exact D'].
      eapply flushed_reject; eauto.
Qed.

(** C3, as the code has it.  On a chain whose tip block holds a list of
    transactions, with a block library whose [addTransaction] appends:
    the synchronous part of [flushTransactionPool] only empties the pool
    (chain and transaction map are untouched when it returns, no callback
    has run) and leaves one pending callback per pooled transaction; when
    the callbacks then run, in whatever order, none throws, the pool
    stays empty, and the outcome is a flush in the sense of [flushed]:
    each transaction is judged against the transaction map and the tip
    block left by the callbacks that ran before it (not against those
    of before the flush), the tip block gains the accepted transactions
    in that order and nothing else, a rejected transaction changes
    neither tip block nor map, and every pooled transaction is either
    accepted or rejected. *)
Theorem flushTransactionPool_validates_in_turn m bs tip txs order :
  blockchain m = bs ++ [tip] ->
  data tip = TxList txs ->
  (forall b t l, data b = TxList l ->
                 data (Block_addTransaction b t) = TxList (l ++ [t])) ->
  Permutation order (transaction_pool m) ->
  flushTransactionPool m =
    Ok (transaction_pool m) (set_transaction_pool [] m) /\
  exists tm' tip' accepted rejected,
    run_flush order (set_transaction_pool [] m) =
      (set_transaction_map tm'
         (set_blockchain (bs ++ [tip']) (set_transaction_pool [] m)), []) /\
    flushed (transaction_map m) tip order tm' tip' accepted rejected /\
    data tip' = TxList (txs ++ accepted) /\
    Permutation (accepted ++ rejected) (transaction_pool m).
Proof.
  intros E D Appends Sched. split.
  - unfold flushTransactionPool. monad. now rewrite map_id.
  - destruct (run_flush_flushed order Appends (set_transaction_pool [] m)
                bs tip txs E D)
      as (tm' & tip' & accepted & rejected & R & F & D').
    exists tm', tip', accepted, rejected.
    repeat split; [exact R | exact F | exact D' |].
    rewrite <- Sched. exact (flushed_partition _ _ _ _ _ _ _ F).
Qed.

(** ** The broadcast on solve *)

Lemma computeHash_mining m bs tip :
  actively_mining m = true ->
  blockchain m = bs ++ [tip] ->
  computeHash m =
  if String.prefix "000"
       (Block_computeHash (set_nonce (js_increment (nonce tip)) tip))
  then Ok (Exporting (mkBroadcast 0 (node_list m) [] false))
         (solved_state m bs tip)
  else Ok Resolved
         (set_blockchain (bs ++ [set_nonce (js_increment (nonce tip)) tip]) m).
Proof.
  intros Mining E. unfold computeHash. monad. rewrite Mining. cbn [negb].
  rewrite (theLatestBlock_last m bs tip E). cbv beta iota.
  rewrite (update_latest_last _ m bs tip E).
  erewrite theLatestBlock_last by reflexivity. cbv beta iota.
  destruct (String.prefix _ _); reflexivity.
Qed.

(** A [computeHash] that starts exports found the node mining, a tip
    block, and a hash with the prefix; the exports go to the peers of
    [node_list], none has completed, and the chain has its length of
    before. *)
Lemma computeHash_exporting m bc m1 :
  computeHash m = Ok (Exporting bc) m1 ->
  bc = mkBroadcast 0 (node_list m1) [] false /\
  node_list m1 = node_list m /\
  List.length (blockchain m1) = List.length (blockchain m) /\
  transaction_pool m1 = transaction_pool m.
Proof.
  intros H.
  destruct (actively_mining m) eqn:Mining.
  - destruct (list_empty_or_last (blockchain m)) as [E | (bs & tip & E)].
    + unfold computeHash, theLatestBlock in H. revert H. monad.
      rewrite Mining. cbn [negb]. cbv beta iota.
      rewrite (latestBlock_empty m E). discriminate.
    + rewrite (computeHash_mining m bs tip Mining E) in H.
      destruct (String.prefix _ _); [|discriminate].
      inversion H; subst. unfold solved_state. fields.
      rewrite E, !length_app. repeat split.
  - unfold computeHash in H. revert H. monad. rewrite Mining. discriminate.
Qed.

Lemma remove_at_length {A} (i : nat) (l : list A) (x : A) :
  nth_error l i = Some x ->
  S (List.length (remove_at i l)) = List.length l.
Proof.
  intros H.
  assert (i < List.length l)%nat by (apply nth_error_Some; congruence).
  unfold remove_at. rewrite length_app, length_firstn, length_skipn. lia.
Qed.

Lemma handler_Some (c : M unit) m bc cfg' :
  handler c m bc = Some cfg' ->
  exists m', c m = Ok tt m' /\ cfg' = (m', bc).
Proof.
  unfold handler. destruct (c m) as [[] m' | e m']; [|discriminate].
  intros H. inversion H. eauto.
Qed.

Lemma step_exports_accounted started e cfg cfg' :
  step e cfg = Some cfg' ->
  exports_accounted started cfg -> exports_accounted started cfg'.
Proof.
  destruct cfg as [m bc]. unfold exports_accounted. cbn [fst snd].
  intros Step (Count & Peers & Done).
  destruct e as [i | i | nodes | t | chain]; cbn [step] in Step.
  - destruct (nth_error (connecting bc) i) as [node|] eqn:N; [|discriminate].
    apply handler_Some in Step. destruct Step as (m' & C & ->).
    unfold connect_callback in C. revert C. monad. intros C.
    inversion C; subst m'. cbn [fst snd]. fields.
    cbn [completed_exports connecting exporting resolved].
    pose proof (remove_at_length _ _ _ N). rewrite length_app.
    cbn [List.length]. split; [lia|]. split; [lia|].
    intros R. destruct (Done R) as [C0 _]. rewrite C0 in N.
    destruct i; discriminate.
  - destruct (nth_error (exporting bc) i) as [node|] eqn:N; [|discriminate].
    pose proof (remove_at_length _ _ _ N) as L.
    unfold export_callback in Step. revert Step. monad.
    cbn [completed_exports connecting exporting resolved].
    destruct (Nat.eqb_spec (S (completed_exports bc))
                           (List.length (node_list m))) as [Last | More].
    + rewrite pushNewBlock_eq. intros Step. inversion Step; subst.
      cbn [fst snd completed_exports connecting exporting resolved].
      unfold pushed. fields.
      assert (List.length (connecting bc) = 0
              /\ List.length (remove_at i (exporting bc)) = 0)%nat
        as [C0 E0] by lia.
      apply length_zero_iff_nil in C0, E0. rewrite C0, E0 in *.
      cbn [List.length] in *. split; [lia|]. split; [lia|]. now split.
    + intros Step. inversion Step; subst.
      cbn [fst snd completed_exports connecting exporting resolved].
      split; [lia|]. split; [lia|].
      intros R. destruct (Done R) as [_ E0]. rewrite E0 in N.
      destruct i; discriminate.
  - apply handler_Some in Step. destruct Step as (m' & C & ->).
    destruct (addNodes_appends nodes m) as (m'' & added & C' & L & _).
    rewrite C' in C. inversion C; subst m''. cbn [fst snd].
    rewrite L, length_app. split; [lia|]. split; [lia|exact Done].
  - apply handler_Some in Step. destruct Step as (m' & C & ->).
    unfold addTransactionToPool, modify in C. inversion C; subst m'.
    cbn [fst snd]. fields. split; [lia|]. split; [lia|exact Done].
  - apply handler_Some in Step. destruct Step as (m' & C & ->).
    pose proof (receiveNewBlockchain_node_list chain m) as NL.
    rewrite C in NL. cbn [final_state] in NL. cbn [fst snd]. rewrite NL.
    split; [lia|]. split; [lia|exact Done].
Qed.

Lemma run_exports_accounted started trace cfg cfg' :
  run trace cfg = Some cfg' ->
  exports_accounted started cfg -> exports_accounted started cfg'.
Proof.
  revert cfg. induction trace as [|e trace IH]; intros cfg; cbn [run].
  - intros E. now inversion E.
  - destruct (step e cfg) as [cfg1|] eqn:S1; [|discriminate].
    intros R I. apply (IH cfg1 R).
    exact (step_exports_accounted started e cfg cfg1 S1 I).
Qed.

(** Before the promise is resolved, only a chain that comes in changes
    the chain. *)
Lemma step_before_resolution e m bc m' bc' :
  step e (m, bc) = Some (m', bc') ->
  is_chain_event e = false ->
  resolved bc' = false ->
  blockchain m' = blockchain m /\ resolved bc = false.
Proof.
  intros Step NoChain Pending.
  destruct e as [i | i | nodes | t | chain]; cbn [step] in Step;
    [| | | |discriminate].
  - destruct (nth_error (connecting bc) i) as [node|]; [|discriminate].
    apply handler_Some in Step. destruct Step as (m1 & C & Eq).
    inversion Eq; subst. unfold connect_callback in C. revert C. monad.
    intros C. inversion C. now split.
  - destruct (nth_error (exporting bc) i) as [node|]; [|discriminate].
    unfold export_callback in Step. revert Step. monad.
    cbn [completed_exports connecting exporting resolved].
    destruct (S (completed_exports bc) =? List.length (node_list m))%nat.
    + rewrite pushNewBlock_eq. intros Step. inversion Step; subst.
      discriminate.
    + intros Step. inversion Step; subst. now split.
  - apply handler_Some in Step. destruct Step as (m1 & C & Eq).
    inversion Eq; subst.
    destruct (addNodes_appends nodes m) as (m2 & added & C' & _ & S).
    rewrite C' in C. inversion C; subst m2. rewrite S. now split.
  - apply handler_Some in Step. destruct Step as (m1 & C & Eq).
    inversion Eq; subst. unfold addTransactionToPool, modify in C.
    inversion C. now split.
Qed.

Lemma run_before_resolution trace m bc m' bc' :
  run trace (m, bc) = Some (m', bc') ->
  no_chain_event trace = true ->
  resolved bc' = false ->
  blockchain m' = blockchain m /\ resolved bc = false.
Proof.
  revert m bc. induction trace as [|e trace IH]; intros m bc; cbn [run].
  - intros E _ Pending. inversion E; subst. now split.
  - destruct (step e (m, bc)) as [[m1 bc1]|] eqn:S1; [|discriminate].
    intros R NoChain Pending. cbn in NoChain.
    apply andb_true_iff in NoChain. destruct NoChain as [N1 N].
    apply negb_true_iff in N1.
    destruct (IH m1 bc1 R N Pending) as [Chain Pending1].
    destruct (step_before_resolution e m bc m1 bc1 S1 N1 Pending1)
      as [Chain1 Pending0].
    split; [congruence | exact Pending0].
Qed.

(** Without an export opening or under way, nothing resolves the
    promise. *)
Lemma run_without_exports trace m bc m' bc' :
  run trace (m, bc) = Some (m', bc') ->
  connecting bc = [] -> exporting bc = [] ->
  bc' = bc.
Proof.
  revert m bc. induction trace as [|e trace IH]; intros m bc; cbn [run].
  - intros E _ _. now inversion E.
  - intros R C0 E0.
    destruct e as [i | i | nodes | t | chain]; cbn [step] in R.
    1, 2: rewrite ?C0, ?E0 in R; destruct i; discriminate.
    all: match type of R with
         | context [handler ?c ?m0 ?bc0] =>
             destruct (handler c m0 bc0) as [[m1 bc1]|] eqn:H;
             [|discriminate];
             apply handler_Some in H; destruct H as (m2 & _ & Eq);
             inversion Eq; subst m1 bc1; exact (IH m2 bc0 R C0 E0)
         end.
Qed.

(** C4, as the code has it.  From the moment a solving [computeHash] has
    started its exports and through whatever happens next (established
    connections and exports finishing in any order, peers added,
    transactions and chains
    coming in): every export started is completed, opening or under way;
    the promise is resolved, which is when the export callback runs
    [pushNewBlock], only once no export is opening or under way and as
    many have completed as were started; and until then the chain is the
    one of the solve, unless a chain that came in replaced it. *)
Theorem push_waits_for_all_exports m bc m1 trace m2 bc2 :
  computeHash m = Ok (Exporting bc) m1 ->
  run trace (m1, bc) = Some (m2, bc2) ->
  (completed_exports bc2 + List.length (connecting bc2)
     + List.length (exporting bc2) = List.length (node_list m1))%nat /\
  (resolved bc2 = true ->
   connecting bc2 = [] /\ exporting bc2 = [] /\
   completed_exports bc2 = List.length (node_list m1)) /\
  (resolved bc2 = false ->
   no_chain_event trace = true ->
   blockchain m2 = blockchain m1).
Proof.
  intros Solve Run.
  destruct (computeHash_exporting m bc m1 Solve) as (-> & _).
  assert (I : exports_accounted (List.length (node_list m1)) (m2, bc2)).
  { apply (run_exports_accounted _ trace _ _ Run).
    unfold exports_accounted. cbn. repeat split; try lia; discriminate. }
  destruct I as (Count & _ & Done). cbn [fst snd] in *.
  split; [exact Count|]. split.
  - intros R. destruct (Done R) as [C0 E0]. rewrite C0, E0 in Count.
    cbn [List.length] in Count. repeat split; [exact C0 | exact E0 | lia].
  - intros Pending NoChain.
    exact (proj1 (run_before_resolution trace _ _ _ _ Run NoChain Pending)).
Qed.

(** C5, on a miner without peers.  When [node_list] is empty and
    [computeHash] solves the hash, no export is started, and whatever
    happens next the promise of [computeHash] stays unresolved: the
    export callback, which alone runs [pushNewBlock] and resolves, never
    runs.  Unless a chain comes in, the chain stays the one of the
    solve: no block is pushed. *)
Theorem solve_without_peers_never_pushes m bc m1 trace m2 bc2 :
  node_list m = [] ->
  computeHash m = Ok (Exporting bc) m1 ->
  run trace (m1, bc) = Some (m2, bc2) ->
  bc = mkBroadcast 0 [] [] false /\
  bc2 = bc /\
  resolved bc2 = false /\
  (no_chain_event trace = true -> blockchain m2 = blockchain m1).
Proof.
  intros Solo Solve Run.
  destruct (computeHash_exporting m bc m1 Solve) as (-> & NL & _).
  rewrite NL, Solo in *.
  pose proof (run_without_exports trace _ _ _ _ Run eq_refl eq_refl) as ->.
  repeat split.
  intros NoChain.
  exact (proj1 (run_before_resolution trace _ _ _ _ Run NoChain eq_refl)).
Qed.

(** ** With peers, the broadcast completes *)

Lemma run_app trace1 trace2 cfg cfg1 :
  run trace1 cfg = Some cfg1 ->
  run (trace1 ++ trace2) cfg = run trace2 cfg1.
Proof.
  revert cfg. induction trace1 as [|e trace1 IH]; intros cfg; cbn [run app].
  - intros E. now inversion E.
  - destruct (step e cfg) as [cfg'|]; [apply IH | discriminate].
Qed.

Lemma run_all_connected opening m k under_way r :
  run (repeat (Connected 0) (List.length opening))
    (m, mkBroadcast k opening under_way r) =
  Some (set_logger (logger m ++ map sending_line opening) m,
        mkBroadcast k [] (under_way ++ opening) r).
Proof.
  revert m under_way.
  induction opening as [|node opening IH]; intros m under_way.
  - cbn. now rewrite !app_nil_r, set_logger_same.
  - cbn [List.length repeat run step connecting nth_error].
    unfold handler, connect_callback. monad.
    cbn [completed_exports connecting exporting resolved].
    change (remove_at 0 (node :: opening)) with opening.
    rewrite IH. fields. now rewrite <- !app_assoc.
Qed.

Lemma run_all_exported under_way m k :
  under_way <> [] ->
  (k + List.length under_way = List.length (node_list m))%nat ->
  run (repeat (Exported 0) (List.length under_way))
    (m, mkBroadcast k [] under_way false) =
  Some (pushed m, mkBroadcast (k + List.length under_way) [] [] true).
Proof.
  revert k. induction under_way as [|node under_way IH]; intros k NE Count;
    [congruence|].
  cbn [List.length repeat run step exporting nth_error].
  unfold export_callback. monad.
  cbn [completed_exports connecting exporting resolved].
  change (remove_at 0 (node :: under_way)) with under_way.
  cbn [List.length] in Count.
  destruct under_way as [|node' under_way].
  - cbn [List.length] in *.
    replace (S k =? List.length (node_list m))%nat with true
      by (symmetry; apply Nat.eqb_eq; lia).
    rewrite pushNewBlock_eq. cbn [run repeat].
    now replace (k + 1)%nat with (S k) by lia.
  - replace (S k =? List.length (node_list m))%nat with false
      by (symmetry; apply Nat.eqb_neq; cbn [List.length] in Count; lia).
    rewrite IH; [|discriminate|lia].
    now replace (S k + List.length (node' :: under_way))%nat
      with (k + S (List.length (node' :: under_way)))%nat by lia.
Qed.

(** When the node has peers and nothing else happens, once every
    connection is established and every export has finished the block
    is pushed, once, and the promise resolved. *)
Lemma broadcast_completes_with_peers m :
  node_list m <> [] ->
  run (repeat (Connected 0) (List.length (node_list m))
       ++ repeat (Exported 0) (List.length (node_list m)))
    (m, mkBroadcast 0 (node_list m) [] false) =
  Some (pushed (set_logger (logger m ++ map sending_line (node_list m)) m),
        mkBroadcast (List.length (node_list m)) [] [] true).
Proof.
  intros Peers.
  rewrite (run_app _ _ _ _ (run_all_connected (node_list m) m 0 [] false)).
  cbn [app].
  exact (run_all_exported (node_list m)
           (set_logger (logger m ++ map sending_line (node_list m)) m)
           0 Peers eq_refl).
Qed.

(** * Further properties of the methods *)

(** ** The tip and the blocks below it *)

Lemma update_at_length {A} (i : nat) (f : A -> A) (l : list A) :
  List.length (update_at i f l) = List.length l.
Proof.
  revert i. induction l as [|x l IH]; intros [|i]; cbn; auto.
Qed.

Lemma below_tip_last {A : Type} (front : list A) (x : A) :
  firstn (List.length (front ++ [x]) - 1) (front ++ [x]) = front.
Proof.
  rewrite length_app. cbn [List.length].
  replace (List.length front + 1 - 1)%nat with (List.length front + 0)%nat
    by lia.
  rewrite firstn_app_2. cbn. apply app_nil_r.
Qed.

Lemma update_latest_length (f : Block -> Block) m :
  List.length (blockchain (update_latest f m)) = List.length (blockchain m).
Proof. unfold update_latest. fields. apply update_at_length. Qed.

Lemma update_latest_below_tip (f : Block -> Block) m :
  below_tip (blockchain (update_latest f m)) = below_tip (blockchain m).
Proof.
  unfold below_tip. rewrite update_latest_length.
  destruct (list_empty_or_last (blockchain m)) as [E | (bs & tip & E)].
  - unfold update_latest. rewrite E. reflexivity.
  - rewrite (update_latest_last f m bs tip E). fields.
    rewrite E, length_app. cbn [List.length].
    replace (List.length bs + 1 - 1)%nat with (List.length bs + 0)%nat by lia.
    now rewrite !firstn_app_2.
Qed.

Lemma latestBlock_Some_last m tip :
  latestBlock m = Some tip -> exists bs, blockchain m = bs ++ [tip].
Proof.
  intros L.
  destruct (list_empty_or_last (blockchain m)) as [E | (bs & tip' & E)].
  - rewrite (latestBlock_empty m E) in L. discriminate.
  - rewrite (latestBlock_last m bs tip' E) in L. inversion L; subst. eauto.
Qed.

(** ** One flush callback *)

Lemma flushTransaction_empty t m :
  latestBlock m = None ->
  flushTransaction t m =
  Throw unit (TypeError "Cannot read properties of undefined") m.
Proof.
  intros L. unfold flushTransaction, data_push, theLatestBlock. monad.
  now rewrite L.
Qed.

Lemma flushTransaction_marker t m tip s :
  latestBlock m = Some tip ->
  data tip = Marker s ->
  flushTransaction t m =
  Throw unit (TypeError "data.push is not a function") m.
Proof.
  intros L D. unfold flushTransaction, data_push, theLatestBlock. monad.
  now rewrite L, D.
Qed.

(** X1.  The tentative append of [flushTransaction] is undone exactly:
    on a tip block that holds a list of transactions, [push] followed by
    [pop] returns and leaves the miner as it was. *)
Theorem data_push_pop_restores t m tip txs :
  latestBlock m = Some tip ->
  data tip = TxList txs ->
  bind (data_push t) (fun _ => data_pop) m = Ok tt m.
Proof.
  intros L D. destruct (latestBlock_Some_last m tip L) as [bs E].
  unfold data_push, data_pop. monad.
  rewrite (theLatestBlock_last m bs tip E), D. cbv beta iota.
  rewrite (update_latest_last _ m bs tip E).
  erewrite theLatestBlock_last by reflexivity. cbv beta iota.
  cbn [data set_data]. cbv beta iota.
  erewrite update_latest_last by reflexivity.
  rewrite removelast_last.
  replace (set_data (TxList txs) (set_data (TxList (txs ++ [t])) tip))
    with tip by (destruct tip; cbn in D; now subst).
  fields. rewrite <- E. now destruct m.
Qed.

(** X2.  A flush callback is all or nothing.  Without a tip block, or on a
    tip block whose [data] is not an array, it throws a [TypeError] and the
    miner is untouched.  Otherwise it returns: when the validator rejects
    the transaction, given the transaction map and the tip with the
    transaction appended, the miner is untouched; when it accepts, only
    the transaction map and the tip block change, by [Transaction.addToMap]
    and [Block.addTransaction]. *)
Theorem flushTransaction_all_or_nothing t m :
  match latestBlock m with
  | None =>
      flushTransaction t m =
      Throw unit (TypeError "Cannot read properties of undefined") m
  | Some tip =>
      match data tip with
      | Marker _ =>
          flushTransaction t m =
          Throw unit (TypeError "data.push is not a function") m
      | TxList txs =>
          flushTransaction t m =
          Ok tt
            (if Transaction_verify t (transaction_map m)
                  (set_data (TxList (txs ++ [t])) tip)
             then update_latest (fun _ => Block_addTransaction tip t)
                    (set_transaction_map
                       (Transaction_addToMap t (transaction_map m)) m)
             else m)
      end
  end.
Proof.
  destruct (latestBlock m) as [tip|] eqn:L.
  - destruct (data tip) as [s | txs] eqn:D.
    + exact (flushTransaction_marker t m tip s L D).
    + destruct (latestBlock_Some_last m tip L) as [bs E].
      rewrite (flushTransaction_eq t m bs tip txs E D).
      unfold committed_on.
      now erewrite update_latest_last by (fields; exact E).
  - exact (flushTransaction_empty t m L).
Qed.

(** ** A whole flush *)

Lemma same_identity_refl m : same_identity m m.
Proof. repeat split. Qed.

Lemma same_but_tip_and_map_refl m : same_but_tip_and_map m m.
Proof. repeat split. Qed.

Lemma same_but_tip_and_map_trans m1 m2 m3 :
  same_but_tip_and_map m1 m2 -> same_but_tip_and_map m2 m3 ->
  same_but_tip_and_map m1 m3.
Proof.
  unfold same_but_tip_and_map, same_identity.
  intros (P & N & L & (I1 & I2 & I3 & I4 & I5 & I6) & C & B)
         (P' & N' & L' & (J1 & J2 & J3 & J4 & J5 & J6) & C' & B').
  repeat split; congruence.
Qed.

Lemma flushTransaction_keeps t m :
  same_but_tip_and_map m (final_state (flushTransaction t m)).
Proof.
  destruct (latestBlock m) as [tip|] eqn:L.
  - destruct (data tip) as [s | txs] eqn:D.
    + rewrite (flushTransaction_marker t m tip s L D).
      apply same_but_tip_and_map_refl.
    + destruct (latestBlock_Some_last m tip L) as [bs E].
      rewrite (flushTransaction_eq t m bs tip txs E D). cbn [final_state].
      destruct (Transaction_verify _ _ _);
        [|apply same_but_tip_and_map_refl].
      unfold same_but_tip_and_map, same_identity, committed_on, below_tip.
      fields. rewrite E, !below_tip_last, !length_app. repeat split.
  - rewrite (flushTransaction_empty t m L). apply same_but_tip_and_map_refl.
Qed.

(** X3.  Whatever the libraries do and whether callbacks throw or not, a
    flush touches only the transaction map and the tip block: the pool, the
    peers, the log, the keys, the length of the chain and every block below
    the tip are after the callbacks what they were before, and no more
    callbacks are rejected than were run. *)
Theorem run_flush_keeps_all_but_tip_and_map order m :
  same_but_tip_and_map m (fst (run_flush order m)) /\
  (List.length (snd (run_flush order m)) <= List.length order)%nat.
Proof.
  revert m. induction order as [|t rest IH]; intros m; cbn [run_flush].
  - split; [apply same_but_tip_and_map_refl | cbn; lia].
  - pose proof (flushTransaction_keeps t m) as K.
    destruct (flushTransaction t m) as [[] m' | e m']; cbn [final_state] in K.
    + destruct (IH m') as [K' L]. split.
      * exact (same_but_tip_and_map_trans _ _ _ K K').
      * cbn [List.length]. lia.
    + destruct (IH m') as [K' L].
      destruct (run_flush rest m') as [m'' errs]. cbn [fst snd] in *. split.
      * exact (same_but_tip_and_map_trans _ _ _ K K').
      * cbn [List.length]. lia.
Qed.

Lemma no_array_at_tip_throws t m :
  no_array_at_tip m ->
  exists e, flushTransaction t m = Throw unit e m.
Proof.
  unfold no_array_at_tip. intros U.
  destruct (latestBlock m) as [tip|] eqn:L.
  - destruct U as [s D]. eexists.
    exact (flushTransaction_marker t m tip s L D).
  - eexists. exact (flushTransaction_empty t m L).
Qed.

(** X4.  A flush on a miner without a tip block, or whose tip block holds
    something else than an array (a genesis block whose [data] is the
    marker), loses the pool: [flushTransactionPool] empties it, every
    callback then throws, and the miner ends as it was but for the emptied
    pool; no transaction reaches the tip block or the transaction map,
    none returns to the pool. *)
Theorem flush_without_array_drops_pool m order :
  no_array_at_tip m ->
  flushTransactionPool m =
    Ok (transaction_pool m) (set_transaction_pool [] m) /\
  exists errors,
    run_flush order (set_transaction_pool [] m) =
      (set_transaction_pool [] m, errors) /\
    List.length errors = List.length order.
Proof.
  intros U. split.
  - unfold flushTransactionPool. monad. now rewrite map_id.
  - assert (U0 : no_array_at_tip (set_transaction_pool [] m)) by exact U.
    revert U0. generalize (set_transaction_pool [] m). intros m0 U0.
    induction order as [|t rest IH]; cbn [run_flush].
    + exists []. now split.
    + destruct (no_array_at_tip_throws t m0 U0) as [e ->].
      destruct IH as (errors & -> & L).
      exists (e :: errors). cbn [List.length]. now rewrite L.
Qed.

(** ** Pushing a block *)


(** ** A chain coming in *)

(** The miner after [receiveNewBlockchain], however it ended: the one of
    before with more logged, or the candidate adopted and a block
    pushed. *)
Lemma receiveNewBlockchain_final chain m :
  (exists l, final_state (receiveNewBlockchain chain m) = set_logger l m) \/
  (exists txs,
     (List.length (blockchain m) < List.length chain)%nat /\
     final_state (receiveNewBlockchain chain m)
       = pushed (adopted chain txs m)).
Proof.
  destruct (Nat.le_gt_cases (List.length chain) (List.length (blockchain m)))
    as [Short | Long].
  { left. rewrite receiveNewBlockchain_not_longer by exact Short.
    eexists. reflexivity. }
  destruct (valid (Block_getVerificationMetadata chain)) eqn:V.
  2: { left. rewrite receiveNewBlockchain_invalid by assumption.
       eexists. reflexivity. }
  destruct (list_empty_or_last (blockchain m)) as [E | (bs & tip & E)].
  { left. rewrite receiveNewBlockchain_empty_chain;
      [eexists; reflexivity | exact E | | exact V].
    intros ->. cbn in Long. lia. }
  destruct (data tip) as [s | txs] eqn:D.
  - left. rewrite (receiveNewBlockchain_marker chain m bs tip s) by assumption.
    eexists. reflexivity.
  - right. exists txs. split; [exact Long|].
    now rewrite (receiveNewBlockchain_adopts chain m bs tip txs).
Qed.

(** X6.  On a tip block whose [data] is not an array, a longer valid
    candidate makes [receiveNewBlockchain] throw a [TypeError] at
    [data.map]: the candidate is not adopted and the miner is what it was,
    log apart. *)
Theorem receiveNewBlockchain_throws_on_marker_tip chain m tip s :
  latestBlock m = Some tip ->
  data tip = Marker s ->
  (List.length (blockchain m) < List.length chain)%nat ->
  valid (Block_getVerificationMetadata chain) = true ->
  exists m',
    receiveNewBlockchain chain m =
      Throw unit (TypeError "data.map is not a function") m' /\
    same_but_log m m' /\
    blockchain m' = blockchain m /\
    transaction_map m' = transaction_map m /\
    transaction_pool m' = transaction_pool m.
Proof.
  intros L D Long Valid. destruct (latestBlock_Some_last m tip L) as [bs E].
  eexists. split.
  - exact (receiveNewBlockchain_marker chain m bs tip s E D Long Valid).
  - repeat split.
Qed.

(** X7.  However [receiveNewBlockchain] ends, the chain is afterwards the
    old one or the candidate followed by one pushed block, and is never
    shorter than before; the pool keeps what it held, in order, with
    anything new after it; peers and keys are untouched. *)
Theorem receiveNewBlockchain_never_shrinks chain m :
  let m' := final_state (receiveNewBlockchain chain m) in
  (blockchain m' = blockchain m \/
   blockchain m' =
     chain ++ [Block_createFrom (nth_error chain (List.length chain - 1))]) /\
  (List.length (blockchain m) <= List.length (blockchain m'))%nat /\
  (exists added, transaction_pool m' = transaction_pool m ++ added) /\
  node_list m' = node_list m /\
  same_identity m m'.
Proof.
  cbv zeta.
  destruct (receiveNewBlockchain_final chain m) as [[l ->] | (txs & Long & ->)].
  - split; [now left|]. split; [fields; lia|].
    split; [exists []; fields; now rewrite app_nil_r|]. repeat split.
  - unfold pushed, adopted, latestBlock. fields.
    split; [now right|].
    split; [rewrite length_app; cbn [List.length]; lia|].
    split; [exists (txs ++ [createNewCoin m]); now rewrite <- app_assoc|].
    repeat split.
Qed.

(** ** The hashing step, all cases *)

Lemma computeHash_empty m :
  actively_mining m = true ->
  blockchain m = [] ->
  computeHash m =
  Throw HashStep (TypeError "Cannot read properties of undefined") m.
Proof.
  intros Mining E. unfold computeHash, theLatestBlock. monad.
  rewrite Mining. cbn [negb]. cbv beta iota.
  now rewrite (latestBlock_empty m E).
Qed.

(** The miner after [computeHash], however it ended. *)
Lemma computeHash_final m :
  final_state (computeHash m) = m \/
  exists bs tip,
    actively_mining m = true /\
    blockchain m = bs ++ [tip] /\
    (final_state (computeHash m) = solved_state m bs tip \/
     final_state (computeHash m) =
       set_blockchain (bs ++ [set_nonce (js_increment (nonce tip)) tip]) m).
Proof.
  destruct (actively_mining m) eqn:Mining.
  - destruct (list_empty_or_last (blockchain m)) as [E | (bs & tip & E)].
    + left. now rewrite computeHash_empty.
    + right. exists bs, tip. split; [reflexivity|]. split; [exact E|].
      rewrite (computeHash_mining m bs tip Mining E).
      destruct (String.prefix _ _); [now left | now right].
  - left. unfold computeHash. monad. now rewrite Mining.
Qed.

(** X8.  However [computeHash] ends, it touches nothing but the log and
    the nonce of the tip block: pool, transaction map, peers, keys, the
    length of the chain and the blocks below the tip stay, and the tip is
    the former one, with its nonce incremented when the node is mining.
    When exports are started, they go to the peers of [node_list], in
    that order, none counted as completed, and the hash of the tip has the
    prefix ["000"]. *)
Theorem computeHash_touches_tip_nonce_only m :
  let m' := final_state (computeHash m) in
  transaction_pool m' = transaction_pool m /\
  transaction_map m' = transaction_map m /\
  node_list m' = node_list m /\
  same_identity m m' /\
  List.length (blockchain m') = List.length (blockchain m) /\
  below_tip (blockchain m') = below_tip (blockchain m) /\
  match latestBlock m with
  | None => latestBlock m' = None
  | Some tip =>
      latestBlock m' =
      Some (if actively_mining m
            then set_nonce (js_increment (nonce tip)) tip else tip)
  end /\
  (forall bc m1,
     computeHash m = Ok (Exporting bc) m1 ->
     bc = mkBroadcast 0 (node_list m) [] false /\
     exists tip,
       latestBlock m1 = Some tip /\
       String.prefix "000" (Block_computeHash tip) = true).
Proof.
  cbv zeta.
  assert (Frame :
    transaction_pool (final_state (computeHash m)) = transaction_pool m /\
    transaction_map (final_state (computeHash m)) = transaction_map m /\
    node_list (final_state (computeHash m)) = node_list m /\
    same_identity m (final_state (computeHash m)) /\
    List.length (blockchain (final_state (computeHash m)))
      = List.length (blockchain m) /\
    below_tip (blockchain (final_state (computeHash m)))
      = below_tip (blockchain m) /\
    match latestBlock m with
    | None => latestBlock (final_state (computeHash m)) = None
    | Some tip =>
        latestBlock (final_state (computeHash m)) =
        Some (if actively_mining m
              then set_nonce (js_increment (nonce tip)) tip else tip)
    end).
  { destruct (actively_mining m) eqn:Mining.
    - destruct (list_empty_or_last (blockchain m)) as [E | (bs & tip & E)].
      + rewrite (computeHash_empty m Mining E).
        cbn [final_state]. rewrite (latestBlock_empty m E). repeat split.
      + rewrite (computeHash_mining m bs tip Mining E).
        rewrite (latestBlock_last m bs tip E).
        assert (L : forall l,
          latestBlock
            (set_logger l
               (set_blockchain
                  (bs ++ [set_nonce (js_increment (nonce tip)) tip]) m))
          = Some (set_nonce (js_increment (nonce tip)) tip)).
        { intros l. now apply (latestBlock_last _ bs). }
        destruct (String.prefix _ _); cbn [final_state]; unfold solved_state;
          unfold below_tip; fields; rewrite ?E, ?below_tip_last;
          rewrite ?length_app; cbn [List.length].
        * repeat split. apply L.
        * repeat split. rewrite <- (set_logger_same (set_blockchain _ m)).
          apply L.
    - assert (F : final_state (computeHash m) = m).
      { unfold computeHash. monad. now rewrite Mining. }
      rewrite F. destruct (latestBlock m); repeat split. }
  destruct Frame as (P & Tm & N & I & Len & B & T).
  repeat split; try assumption; try apply I.
  - destruct (computeHash_exporting m bc m1 H) as (-> & -> & _). reflexivity.
  - destruct (actively_mining m) eqn:Mining.
    + destruct (list_empty_or_last (blockchain m)) as [E | (bs & tip & E)].
      * rewrite (computeHash_empty m Mining E) in H.
        discriminate.
      * rewrite (computeHash_mining m bs tip Mining E) in H.
        destruct (String.prefix _ _) eqn:Pre; [|discriminate].
        inversion H; subst. eexists. split; [|exact Pre].
        now apply (latestBlock_last _ bs).
    + unfold computeHash in H. revert H. monad. rewrite Mining. discriminate.
Qed.

(** ** What holds through the life of a miner *)

Lemma createGenesisIfNeeded_final m :
  final_state (createGenesisIfNeeded m) =
  match blockchain m with
  | [] => set_transaction_map empty_object
            (set_blockchain [Block_create "GENESIS"] m)
  | _ :: _ => m
  end.
Proof.
  unfold createGenesisIfNeeded, createGenesisBlock. monad.
  destruct (blockchain m); reflexivity.
Qed.

(** Every call keeps the keys, the address and the mining toggle, never
    shortens the chain, and keeps a registry without duplicates so. *)
Lemma after_call_keeps (c : Call Transaction BlockMeta) m :
  same_identity m (after_call c m) /\
  (List.length (blockchain m) <= List.length (blockchain (after_call c m)))%nat /\
  (NoDup (node_list m) -> NoDup (node_list (after_call c m))).
Proof.
  destruct c as [nodes | t | chain | | | t | | node | | chain prefix];
    cbn [after_call].
  - split; [|split; [|apply addNodes_NoDup]];
      destruct (addNodes_appends nodes m) as (m' & added & -> & _ & S);
      cbn [final_state]; rewrite S; fields; [repeat split | lia].
  - unfold addTransactionToPool, modify. cbn [final_state]. fields.
    repeat split; auto.
  - rewrite (receiveNewBlockchain_node_list chain m).
    destruct (receiveNewBlockchain_final chain m)
      as [[l ->] | (txs & Long & ->)].
    + fields. repeat split; auto.
    + unfold pushed, adopted. fields. rewrite length_app. cbn [List.length].
      repeat split; auto; lia.
  - rewrite createGenesisIfNeeded_final.
    destruct (blockchain m) eqn:E; fields; rewrite ?E; cbn [List.length];
      repeat split; auto; lia.
  - unfold flushTransactionPool. monad. cbn [final_state]. fields.
    repeat split; auto.
  - destruct (flushTransaction_keeps t m) as (_ & NL & _ & I & Len & _).
    split; [exact I|]. split; [lia|]. now rewrite NL.
  - destruct (computeHash_final m)
      as [-> | (bs & tip & _ & E & [-> | ->])].
    + repeat split; auto.
    + unfold solved_state. fields. rewrite E, !length_app.
      repeat split; auto.
    + fields. rewrite E, !length_app. repeat split; auto.
  - unfold connect_callback. monad. cbn [final_state]. fields.
    repeat split; auto.
  - rewrite pushNewBlock_eq. cbn [final_state]. unfold pushed. fields.
    rewrite length_app. cbn [List.length]. repeat split; auto; lia.
  - rewrite logChain_eq. cbn [final_state]. fields. repeat split; auto.
Qed.

Lemma same_identity_trans m1 m2 m3 :
  same_identity m1 m2 -> same_identity m2 m3 -> same_identity m1 m3.
Proof.
  unfold same_identity.
  intros (I1 & I2 & I3 & I4 & I5 & I6) (J1 & J2 & J3 & J4 & J5 & J6).
  repeat split; congruence.
Qed.

Lemma after_calls_keeps (calls : list (Call Transaction BlockMeta)) m :
  same_identity m (after_calls calls m) /\
  (List.length (blockchain m)
   <= List.length (blockchain (after_calls calls m)))%nat /\
  (NoDup (node_list m) -> NoDup (node_list (after_calls calls m))).
Proof.
  unfold after_calls. revert m.
  induction calls as [|c calls IH]; intros m; cbn [fold_left].
  - split; [apply same_identity_refl|]. split; [lia | auto].
  - destruct (after_call_keeps c m) as (I & L & N).
    destruct (IH (after_call c m)) as (I' & L' & N').
    split; [exact (same_identity_trans _ _ _ I I')|]. split; [lia | auto].
Qed.

(** X9.  No method writes the identity of the miner: after any sequence
    of calls of its methods and callbacks, returned or thrown, the three
    keys, the port, the host and the mining toggle are those the miner
    started with. *)
Theorem identity_never_changes (calls : list (Call Transaction BlockMeta)) m :
  same_identity m (after_calls calls m) /\
  createNewCoin (after_calls calls m) = createNewCoin m.
Proof.
  destruct (after_calls_keeps calls m) as ((I1 & I2 & I3) & _).
  split; [exact (proj1 (after_calls_keeps calls m))|].
  unfold createNewCoin, createNewCoin_call. now rewrite I1, I2.
Qed.

(** X10.  The chain never gets shorter: after any sequence of calls of
    the methods and callbacks it has at least the blocks it had; so a
    chain that has its genesis block never becomes empty again. *)
Theorem chain_never_shrinks (calls : list (Call Transaction BlockMeta)) m :
  (List.length (blockchain m)
   <= List.length (blockchain (after_calls calls m)))%nat /\
  (blockchain m <> [] -> latestBlock (after_calls calls m) <> None).
Proof.
  destruct (after_calls_keeps calls m) as (_ & L & _).
  split; [exact L|].
  intros NE Tip.
  destruct (list_empty_or_last (blockchain (after_calls calls m)))
    as [E | (bs & tip & E)].
  - rewrite E in L. destruct (blockchain m); [congruence | cbn in L; lia].
  - rewrite (latestBlock_last _ bs tip E) in Tip. discriminate.
Qed.


(** X12.  The registry never holds a peer twice: the miner the
    constructor builds has no peer, and after any sequence of calls of
    the methods and callbacks [node_list] has no duplicate. *)
Theorem registry_never_duplicates (p : Z) (h : string)
    (public_key private_key owner_key : Key)
    (calls : list (Call Transaction BlockMeta)) :
  NoDup
    (node_list
       (after_calls calls (new_Miner p h public_key private_key owner_key))).
Proof.
  apply (after_calls_keeps calls). constructor.
Qed.

(** ** The registry, for lists of peers *)

Lemma addNodes_nothing_new (nodes : list Node) m :
  (forall node, In node nodes -> In node (node_list m)) ->
  addNodes nodes m = Ok tt m.
Proof.
  induction nodes as [|node nodes IH]; intros Listed; [reflexivity|].
  assert (A : already_in_list node (node_list m) = true)
    by (apply already_in_list_In, Listed; now left).
  pose proof (addNodes_one node m) as One. rewrite A in One.
  rewrite (addNodes_cons node nodes m m One).
  apply IH. intros n Hn. apply Listed. now right.
Qed.

Lemma addNodes_added (nodes : list Node) m :
  exists m' added,
    addNodes nodes m = Ok tt m' /\
    node_list m' = node_list m ++ added /\
    incl added nodes /\
    (forall node, In node added -> ~ In node (node_list m)) /\
    NoDup added /\
    (forall node, In node nodes -> In node (node_list m')) /\
    m' = set_node_list (node_list m') m.
Proof.
  revert m. induction nodes as [|node nodes IH]; intros m.
  - exists m, []. rewrite app_nil_r.
    repeat split; try easy; [constructor | now destruct m].
  - rewrite (addNodes_cons node nodes m _ (addNodes_one node m)).
    destruct (already_in_list node (node_list m)) eqn:A.
    + destruct (IH m) as (m' & added & E & L & Sub & New & ND & All & S).
      exists m', added. split; [exact E|]. split; [exact L|].
      split; [now apply incl_tl|]. split; [exact New|]. split; [exact ND|].
      split; [|exact S].
      intros n [<- | Hn]; [|now apply All].
      rewrite L. apply in_or_app. left. now apply already_in_list_In.
    + destruct (IH (set_node_list (node_list m ++ [node]) m))
        as (m' & added & E & L & Sub & New & ND & All & S).
      cbn [node_list set_node_list] in L, New.
      assert (Out : ~ In node (node_list m))
        by (rewrite <- already_in_list_In; congruence).
      exists m', (node :: added). split; [exact E|].
      split; [now rewrite L, <- app_assoc|].
      split; [intros n [<- | Hn]; [now left | right; now apply Sub]|].
      split.
      { intros n [<- | Hn]; [exact Out|].
        intros Hin. apply (New n Hn). apply in_or_app. now left. }
      split.
      { constructor; [|exact ND].
        intros Hin. apply (New node Hin). apply in_or_app. right. now left. }
      split.
      { intros n [<- | Hn]; [|now apply All].
        rewrite L. apply in_or_app. left. apply in_or_app. right. now left. }
      rewrite S at 1. reflexivity.
Qed.

(** X13.  [addNodes] on a list of peers never throws and only appends:
    the peers listed before stay first and in order; what is appended
    are given peers that were not listed, each once; afterwards every
    given peer is listed; nothing but [node_list] changes; and the same
    call again changes nothing. *)
Theorem addNodes_lists_every_peer (nodes : list Node) m :
  exists m' added,
    addNodes nodes m = Ok tt m' /\
    node_list m' = node_list m ++ added /\
    incl added nodes /\
    (forall node, In node added -> ~ In node (node_list m)) /\
    NoDup added /\
    (forall node, In node nodes -> In node (node_list m')) /\
    m' = set_node_list (node_list m') m /\
    addNodes nodes m' = Ok tt m'.
Proof.
  destruct (addNodes_added nodes m)
    as (m' & added & E & L & Sub & New & ND & All & S).
  exists m', added. repeat split; try assumption.
  now apply addNodes_nothing_new.
Qed.

(** ** One solve, one block *)

Lemma latestBlock_same_chain m m' :
  blockchain m' = blockchain m -> latestBlock m' = latestBlock m.
Proof. unfold latestBlock. now intros ->. Qed.

Lemma createNewCoin_same_identity m m' :
  same_identity m m' -> createNewCoin m' = createNewCoin m.
Proof.
  intros (I1 & I2 & _). unfold createNewCoin, createNewCoin_call.
  now rewrite I1, I2.
Qed.

(** An event other than a chain coming in either is the export callback
    that pushes the block and resolves, or leaves the chain alone and adds
    to the pool the transaction it brings, if any. *)
Lemma step_pushes_or_not e m bc m' bc' :
  step e (m, bc) = Some (m', bc') ->
  is_chain_event e = false ->
  (resolved bc = true -> exporting bc = []) ->
  (m' = pushed m /\ resolved bc = false /\ resolved bc' = true /\
   received [e] = []) \/
  (blockchain m' = blockchain m /\
   transaction_pool m' = transaction_pool m ++ received [e] /\
   same_identity m m' /\
   resolved bc' = resolved bc).
Proof.
  intros Step NoChain Done.
  destruct e as [i | i | nodes | t | chain]; cbn [step] in Step;
    [| | | |discriminate].
  - right. destruct (nth_error (connecting bc) i) as [node|]; [|discriminate].
    apply handler_Some in Step. destruct Step as (m1 & C & Eq).
    inversion Eq; subst. unfold connect_callback in C. revert C. monad.
    intros C. inversion C. fields. cbn. rewrite app_nil_r. repeat split.
  - destruct (nth_error (exporting bc) i) as [node|] eqn:N; [|discriminate].
    assert (Pending : resolved bc = false).
    { destruct (resolved bc); [|reflexivity].
      rewrite (Done eq_refl) in N. destruct i; discriminate. }
    unfold export_callback in Step. revert Step. monad.
    cbn [completed_exports connecting exporting resolved].
    destruct (S (completed_exports bc) =? List.length (node_list m))%nat.
    + rewrite pushNewBlock_eq. intros Step. inversion Step; subst.
      left. repeat split. exact Pending.
    + intros Step. inversion Step; subst. right. cbn.
      rewrite app_nil_r. repeat split.
  - right. apply handler_Some in Step. destruct Step as (m1 & C & Eq).
    inversion Eq; subst.
    destruct (addNodes_appends nodes m) as (m2 & added & C' & _ & S).
    rewrite C' in C. inversion C; subst m2. rewrite S. fields. cbn.
    rewrite app_nil_r. repeat split.
  - right. apply handler_Some in Step. destruct Step as (m1 & C & Eq).
    inversion Eq; subst. unfold addTransactionToPool, modify in C.
    inversion C. fields. repeat split.
Qed.

Lemma run_pushes_once started trace :
  forall m bc m2 bc2,
    run trace (m, bc) = Some (m2, bc2) ->
    no_chain_event trace = true ->
    exports_accounted started (m, bc) ->
    (resolved bc = true -> resolved bc2 = true) /\
    (resolved bc2 = resolved bc ->
     blockchain m2 = blockchain m /\
     transaction_pool m2 = transaction_pool m ++ received trace) /\
    (resolved bc = false -> resolved bc2 = true ->
     blockchain m2 = blockchain m ++ [Block_createFrom (latestBlock m)] /\
     exists before after,
       received trace = before ++ after /\
       transaction_pool m2 =
         transaction_pool m ++ before ++ createNewCoin m :: after).
Proof.
  induction trace as [|e rest IH]; intros m bc m2 bc2 Run NoChain Acc.
  - cbn in Run. inversion Run; subst. cbn [received flat_map].
    rewrite app_nil_r. split; [auto|]. split; [now split|].
    intros P0 P1. congruence.
  - cbn [run] in Run.
    destruct (step e (m, bc)) as [[m1 bc1]|] eqn:S1; [|discriminate].
    cbn in NoChain. apply andb_true_iff in NoChain.
    destruct NoChain as [N1 N]. apply negb_true_iff in N1.
    pose proof (step_exports_accounted started e _ _ S1 Acc) as Acc1.
    destruct (IH m1 bc1 m2 bc2 Run N Acc1) as (Mono & Same & Push).
    assert (R : received (e :: rest) = received [e] ++ received rest).
    { unfold received. cbn [flat_map]. now rewrite app_nil_r. }
    destruct (step_pushes_or_not e m bc m1 bc1 S1 N1)
      as [(-> & P0 & P1 & R0) | (C & P & I & Res)].
    { intros Rt. apply (proj2 (proj2 Acc) Rt). }
    + rewrite R, R0. cbn [app].
      split; [congruence|]. split.
      { intros Eq. rewrite (Mono P1), P0 in Eq. discriminate. }
      intros _ Rt.
      assert (Eq : resolved bc2 = resolved bc1) by congruence.
      destruct (Same Eq) as [C2 P2].
      split; [rewrite C2; reflexivity|].
      exists [], (received rest). split; [reflexivity|].
      rewrite P2. unfold pushed. fields. now rewrite <- app_assoc.
    + rewrite R. split; [intros Rt; apply Mono; congruence|]. split.
      * intros Eq. assert (Eq1 : resolved bc2 = resolved bc1) by congruence.
        destruct (Same Eq1) as [C2 P2].
        split; [congruence|]. now rewrite P2, P, <- app_assoc.
      * intros P0 Rt. assert (P1 : resolved bc1 = false) by congruence.
        destruct (Push P1 Rt) as (C2 & before & after & Rr & P2).
        rewrite (latestBlock_same_chain m m1 C), C in C2.
        split; [exact C2|].
        exists (received [e] ++ before), after.
        split; [now rewrite Rr, app_assoc|].
        rewrite P2, P, (createNewCoin_same_identity m m1 I).
        now rewrite <- !app_assoc.
Qed.

(** X14.  One solve pushes one block and one coin, whatever the order:
    from a solving [computeHash] on, through connections, exports, peers
    added and transactions coming in, in any order, and as long as no
    chain comes in: while the promise is unresolved the chain is the one
    of the solve and the pool has gained the transactions that came in;
    once it is resolved the chain has gained exactly one block, made from
    the tip of the solve, and the pool exactly one new coin among the
    transactions that came in. *)
Theorem one_solve_pushes_one_block m bc m1 trace m2 bc2 :
  computeHash m = Ok (Exporting bc) m1 ->
  run trace (m1, bc) = Some (m2, bc2) ->
  no_chain_event trace = true ->
  (resolved bc2 = false ->
   blockchain m2 = blockchain m1 /\
   transaction_pool m2 = transaction_pool m1 ++ received trace) /\
  (resolved bc2 = true ->
   blockchain m2 = blockchain m1 ++ [Block_createFrom (latestBlock m1)] /\
   exists before after,
     received trace = before ++ after /\
     transaction_pool m2 =
       transaction_pool m1 ++ before ++ createNewCoin m1 :: after).
Proof.
  intros Solve Run NoChain.
  destruct (computeHash_exporting m bc m1 Solve) as (-> & _).
  assert (Acc : exports_accounted (List.length (node_list m1))
                  (m1, mkBroadcast 0 (node_list m1) [] false)).
  { unfold exports_accounted. cbn. repeat split; try lia; discriminate. }
  destruct (run_pushes_once _ trace _ _ _ _ Run NoChain Acc)
    as (_ & Same & Push).
  split.
  - intros Pending. apply Same. now rewrite Pending.
  - intros Done. now apply Push.
Qed.

(** X15.  With at least one peer a solve can complete: when every
    connection is established and then every export finishes, the
    promise is resolved and the block pushed. *)
Theorem solve_with_peers_completes m bc m1 :
  computeHash m = Ok (Exporting bc) m1 ->
  node_list m <> [] ->
  exists trace m2 bc2,
    run trace (m1, bc) = Some (m2, bc2) /\
    no_chain_event trace = true /\
    resolved bc2 = true /\
    completed_exports bc2 = List.length (node_list m) /\
    blockchain m2 = blockchain m1 ++ [Block_createFrom (latestBlock m1)] /\
    transaction_pool m2 = transaction_pool m1 ++ [createNewCoin m1].
Proof.
  intros Solve Peers.
  destruct (computeHash_exporting m bc m1 Solve) as (-> & NL & _).
  rewrite <- NL in Peers.
  pose proof (broadcast_completes_with_peers m1 Peers) as Run.
  eexists _, _, _. split; [exact Run|].
  split.
  { unfold no_chain_event. rewrite forallb_app. apply andb_true_iff.
    split; apply forallb_forall; intros e He; apply repeat_spec in He;
      now subst. }
  split; [reflexivity|]. split; [now rewrite NL|].
  unfold pushed, latestBlock. fields. split; reflexivity.
Qed.

(** ** A peer added while exports are pending *)

Lemma step_stays_unresolved started e m bc m' bc' :
  step e (m, bc) = Some (m', bc') ->
  exports_accounted started (m, bc) ->
  (started < List.length (node_list m))%nat ->
  resolved bc = false ->
  (started < List.length (node_list m'))%nat /\ resolved bc' = false.
Proof.
  intros Step (Count & _ & _) Short Pending. cbn [fst snd] in Count.
  destruct e as [i | i | nodes | t | chain]; cbn [step] in Step.
  - destruct (nth_error (connecting bc) i) as [node|]; [|discriminate].
    apply handler_Some in Step. destruct Step as (m1 & C & Eq).
    inversion Eq; subst. unfold connect_callback in C. revert C. monad.
    intros C. inversion C. fields. now split.
  - destruct (nth_error (exporting bc) i) as [node|] eqn:N; [|discriminate].
    assert (i < List.length (exporting bc))%nat
      by (apply nth_error_Some; congruence).
    unfold export_callback in Step. revert Step. monad.
    cbn [completed_exports connecting exporting resolved].
    destruct (Nat.eqb_spec (S (completed_exports bc))
                           (List.length (node_list m))) as [Last | More];
      [lia|].
    intros Step. inversion Step; subst. now split.
  - apply handler_Some in Step. destruct Step as (m1 & C & Eq).
    inversion Eq; subst.
    destruct (addNodes_appends nodes m) as (m2 & added & C' & L & _).
    rewrite C' in C. inversion C; subst m2. rewrite L, length_app.
    split; [lia | exact Pending].
  - apply handler_Some in Step. destruct Step as (m1 & C & Eq).
    inversion Eq; subst. unfold addTransactionToPool, modify in C.
    inversion C. fields. now split.
  - apply handler_Some in Step. destruct Step as (m1 & C & Eq).
    inversion Eq; subst.
    pose proof (receiveNewBlockchain_node_list chain m) as NL.
    rewrite C in NL. cbn [final_state] in NL. rewrite NL. now split.
Qed.

Lemma run_stays_unresolved started trace :
  forall m bc m2 bc2,
    run trace (m, bc) = Some (m2, bc2) ->
    exports_accounted started (m, bc) ->
    (started < List.length (node_list m))%nat ->
    resolved bc = false ->
    (started < List.length (node_list m2))%nat /\ resolved bc2 = false.
Proof.
  induction trace as [|e rest IH]; intros m bc m2 bc2 Run Acc Short Pending.
  - cbn in Run. inversion Run; subst. now split.
  - cbn [run] in Run.
    destruct (step e (m, bc)) as [[m1 bc1]|] eqn:S1; [|discriminate].
    destruct (step_stays_unresolved started e m bc m1 bc1 S1 Acc Short Pending)
      as [Short1 Pending1].
    exact (IH m1 bc1 m2 bc2 Run
             (step_exports_accounted started e _ _ S1 Acc) Short1 Pending1).
Qed.

(** X16.  A peer added while the exports of a solve are pending blocks the
    miner: the export callback compares the count of completed exports
    with the length [node_list] has when it runs, which the exports
    started can no longer reach; whatever happens next the promise of
    [computeHash] stays unresolved, and unless a chain comes in no block
    is pushed. *)
Theorem peer_added_during_broadcast_blocks m bc m1 (node : Node) trace m2 bc2 :
  computeHash m = Ok (Exporting bc) m1 ->
  ~ In node (node_list m) ->
  run (NodesAdded [node] :: trace) (m1, bc) = Some (m2, bc2) ->
  resolved bc2 = false /\
  (completed_exports bc2 < List.length (node_list m2))%nat /\
  (no_chain_event trace = true -> blockchain m2 = blockchain m1).
Proof.
  intros Solve New Run.
  destruct (computeHash_exporting m bc m1 Solve) as (-> & NL & _).
  cbn [run step] in Run. unfold handler in Run.
  rewrite addNodes_one in Run.
  assert (A : already_in_list node (node_list m1) = false).
  { rewrite NL. destruct (already_in_list node (node_list m)) eqn:A;
      [|reflexivity].
    apply already_in_list_In in A. contradiction. }
  rewrite A in Run.
  set (m1' := set_node_list (node_list m1 ++ [node]) m1) in *.
  assert (Acc : exports_accounted (List.length (node_list m1))
                  (m1', mkBroadcast 0 (node_list m1) [] false)).
  { unfold exports_accounted. subst m1'. cbn. rewrite length_app.
    repeat split; try lia; discriminate. }
  assert (Short : (List.length (node_list m1)
                   < List.length (node_list m1'))%nat).
  { subst m1'. fields. rewrite length_app. cbn. lia. }
  destruct (run_stays_unresolved _ trace _ _ _ _ Run Acc Short eq_refl)
    as [Short2 Pending].
  split; [exact Pending|]. split.
  - destruct (run_exports_accounted _ trace _ _ Run Acc) as (Count & _).
    cbn [fst snd] in Count. lia.
  - intros NoChain.
    exact (proj1 (run_before_resolution trace _ _ _ _ Run NoChain Pending)).
Qed.

(** ** After an adoption *)

(** X17.  A chain is adopted once.  After a replacement by [chain] the
    miner holds one block more than [chain], so the same chain again, and
    any candidate with at most one block more than [chain], is ignored:
    the call returns and changes nothing but the log. *)
Theorem adopted_chain_is_not_adopted_again chain chain' m bs tip txs :
  blockchain m = bs ++ [tip] ->
  data tip = TxList txs ->
  (List.length (blockchain m) < List.length chain)%nat ->
  valid (Block_getVerificationMetadata chain) = true ->
  (List.length chain' <= S (List.length chain))%nat ->
  exists m' m'',
    receiveNewBlockchain chain m = Ok tt m' /\
    receiveNewBlockchain chain' m' = Ok tt m'' /\
    same_but_log m' m'' /\
    blockchain m'' = blockchain m' /\
    transaction_map m'' = transaction_map m' /\
    transaction_pool m'' = transaction_pool m'.
Proof.
  intros E D Long Valid Tie.
  exists (pushed (adopted chain txs m)). eexists.
  split; [exact (receiveNewBlockchain_adopts chain m bs tip txs E D Long Valid)|].
  split.
  - apply receiveNewBlockchain_not_longer.
    unfold pushed, adopted. fields. rewrite length_app. cbn [List.length]. lia.
  - repeat split.
Qed.

(** ** The search for a nonce *)

Lemma after_calls_cons (c : Call Transaction BlockMeta) calls m :
  after_calls (c :: calls) m = after_calls calls (after_call c m).
Proof. reflexivity. Qed.

(** X18.  Mining tries the nonces one by one and skips none: when the
    next [k] nonces of the tip block give hashes without the prefix
    ["000"] and the one after them a hash with it, [k] calls of
    [computeHash] each resolve at once and change the tip's nonce only,
    which is then [k] more than at the start, and the next call starts the
    exports with the nonce [k + 1] more (nonces staying below [2^53],
    where the increment is exact). *)
Theorem mining_finds_the_first_solving_nonce (k : nat) :
  forall m bs tip,
    actively_mining m = true ->
    blockchain m = bs ++ [tip] ->
    Z.abs (nonce tip) + Z.of_nat (S k) < 2 ^ 53 ->
    (forall i, (0 < i <= k)%nat ->
       String.prefix "000"
         (Block_computeHash (set_nonce (nonce tip + Z.of_nat i) tip))
       = false) ->
    String.prefix "000"
      (Block_computeHash (set_nonce (nonce tip + Z.of_nat (S k)) tip))
    = true ->
    after_calls (repeat CallComputeHash k) m =
      set_blockchain (bs ++ [set_nonce (nonce tip + Z.of_nat k) tip]) m /\
    computeHash (after_calls (repeat CallComputeHash k) m) =
      Ok (Exporting (mkBroadcast 0 (node_list m) [] false))
         (set_logger (logger m ++ [Line "Solved the hash problem."])
            (set_blockchain
               (bs ++ [set_nonce (nonce tip + Z.of_nat (S k)) tip]) m)).
Proof.
  induction k as [|k IH]; intros m bs tip Mining E Safe Unsolved Solved.
  - cbn [repeat after_calls fold_left].
    replace (nonce tip + Z.of_nat 0) with (nonce tip) by lia.
    split.
    + replace (set_nonce (nonce tip) tip) with tip by (now destruct tip).
      rewrite <- E. now destruct m.
    + rewrite (computeHash_mining m bs tip Mining E). unfold solved_state.
      rewrite js_increment_exact by lia.
      replace (nonce tip + 1) with (nonce tip + Z.of_nat 1) by lia.
      now rewrite Solved.
  - cbn [repeat]. rewrite after_calls_cons. cbn [after_call].
    rewrite (computeHash_mining m bs tip Mining E).
    rewrite js_increment_exact by lia.
    replace (nonce tip + 1) with (nonce tip + Z.of_nat 1) by lia.
    rewrite (Unsolved 1%nat) by lia. cbn [final_state].
    set (tip1 := set_nonce (nonce tip + Z.of_nat 1) tip).
    set (m1 := set_blockchain (bs ++ [tip1]) m).
    assert (Rebase : forall j,
      set_nonce (nonce tip1 + Z.of_nat j) tip1
      = set_nonce (nonce tip + Z.of_nat (S j)) tip).
    { intros j. subst tip1. unfold set_nonce. cbn [nonce data meta].
      f_equal. lia. }
    destruct (IH m1 bs tip1) as [State Next].
    + exact Mining.
    + reflexivity.
    + subst tip1. cbn [nonce set_nonce]. lia.
    + intros i Hi. rewrite Rebase. apply Unsolved. lia.
    + rewrite Rebase. exact Solved.
    + rewrite Next, State, !Rebase. split; reflexivity.
Qed.

End Properties.

(** * The properties on sample miners *)

Lemma sample_stage_appends (b : Sample.block) (t : Sample.transaction)
    (l : list Sample.transaction) :
  data b = TxList l -> data (Sample.stage b t) = TxList (l ++ [t]).
Proof. intros D. unfold Sample.stage. rewrite D. reflexivity. Qed.

Lemma addNodes_idempotent_by_value_witness :
  exists m1,
    addNodes [Sample.peer2; Sample.peer2] Sample.started = Ok tt m1 /\
    NoDup (node_list m1) /\
    count_occ Node_eq_dec (node_list m1) Sample.peer2 = 1%nat.
Proof.
  destruct (addNodes_idempotent_by_value Sample.peer2 Sample.started)
    as (m1 & _ & _ & _ & _ & Twice & _ & Once).
  exists m1. split; [exact Twice|].
  apply Once. repeat constructor. cbn. intuition.
Defined.

Lemma computeHash_idle_or_unsolved_witness :
  computeHash Sample.fresh = Ok (Delayed 100) Sample.fresh /\
  computeHash Sample.started =
    Ok Resolved
      (set_blockchain
         ([Sample.genesis]
          ++ [set_nonce (nonce Sample.block2 + 1) Sample.block2])
         Sample.started).
Proof.
  split.
  - apply (proj1 (computeHash_idle_or_unsolved Sample.fresh)). reflexivity.
  - apply (proj2 (computeHash_idle_or_unsolved Sample.started)
             [Sample.genesis] Sample.block2).
    + reflexivity.
    + reflexivity.
    + vm_compute. reflexivity.
    + vm_compute. reflexivity.
Defined.

Lemma receiveNewBlockchain_rejects_witness :
  (exists m',
     receiveNewBlockchain [Sample.genesis; Sample.block2] Sample.busy
       = Ok tt m' /\
     same_but_log Sample.busy m' /\
     blockchain m' = blockchain Sample.busy /\
     transaction_map m' = transaction_map Sample.busy /\
     transaction_pool m' = transaction_pool Sample.busy) /\
  ((List.length (blockchain Sample.busy)
    < List.length [Sample.genesis; Sample.block1; Sample.block2])%nat /\
   valid (Block_getVerificationMetadata
            [Sample.genesis; Sample.block1; Sample.block2]) = true).
Proof.
  split.
  - apply (proj1 (receiveNewBlockchain_rejects
                    [Sample.genesis; Sample.block2] Sample.busy)).
    left. cbn. lia.
  - apply (proj2 (receiveNewBlockchain_rejects
                    [Sample.genesis; Sample.block1; Sample.block2]
                    Sample.busy)).
    left. vm_compute. discriminate.
Defined.

Lemma receiveNewBlockchain_requeues_and_pushes_witness :
  exists m',
    receiveNewBlockchain [Sample.genesis; Sample.block1; Sample.block2]
      Sample.busy = Ok tt m' /\
    transaction_pool m' =
      transaction_pool Sample.busy ++ [Sample.A]
      ++ [createNewCoin Sample.busy] /\
    (forall t, In t [Sample.A] -> In t (transaction_pool m')) /\
    blockchain m' =
      [Sample.genesis; Sample.block1; Sample.block2]
      ++ [Block_createFrom
            (nth_error [Sample.genesis; Sample.block1; Sample.block2]
               (List.length [Sample.genesis; Sample.block1; Sample.block2] - 1))] /\
    List.length (blockchain m') =
      S (List.length [Sample.genesis; Sample.block1; Sample.block2]) /\
    transaction_map m' =
      vm_transaction_map
        (Block_getVerificationMetadata
           [Sample.genesis; Sample.block1; Sample.block2]) /\
    node_list m' = node_list Sample.busy.
Proof.
  apply (receiveNewBlockchain_requeues_and_pushes
           [Sample.genesis; Sample.block1; Sample.block2] Sample.busy
           [Sample.genesis] Sample.block1 [Sample.A]).
  - reflexivity.
  - reflexivity.
  - cbn. lia.
  - vm_compute. reflexivity.
Defined.

Lemma receiveNewBlockchain_throws_on_empty_chain_witness :
  latestBlock Sample.fresh = None /\
  exists m',
    receiveNewBlockchain [Sample.genesis] Sample.fresh =
      Throw unit (TypeError "Cannot read properties of undefined") m' /\
    same_but_log Sample.fresh m' /\
    blockchain m' = [] /\
    transaction_map m' = transaction_map Sample.fresh.
Proof.
  apply (receiveNewBlockchain_throws_on_empty_chain
           [Sample.genesis] Sample.fresh).
  - reflexivity.
  - cbn. lia.
  - vm_compute. reflexivity.
Defined.

Lemma flushTransactionPool_validates_in_turn_witness :
  flushTransactionPool Sample.busy =
    Ok (transaction_pool Sample.busy) (set_transaction_pool [] Sample.busy) /\
  exists tm' tip' accepted rejected,
    run_flush [Sample.C; Sample.B] (set_transaction_pool [] Sample.busy) =
      (set_transaction_map tm'
         (set_blockchain ([Sample.genesis] ++ [tip'])
            (set_transaction_pool [] Sample.busy)), []) /\
    flushed (transaction_map Sample.busy) Sample.block1
      [Sample.C; Sample.B] tm' tip' accepted rejected /\
    data tip' = TxList ([Sample.A] ++ accepted) /\
    Permutation (accepted ++ rejected) (transaction_pool Sample.busy).
Proof.
  apply (flushTransactionPool_validates_in_turn
           Sample.busy [Sample.genesis] Sample.block1 [Sample.A]
           [Sample.C; Sample.B]).
  - reflexivity.
  - reflexivity.
  - exact sample_stage_appends.
  - apply perm_swap.
Defined.

(** C3 as worded fails: [B] spends an output of [A]; pooled after [A], it
    is added to the tip block because [A] was recorded just before, while
    the validator rejects it against the transaction map of before the
    flush. *)
Lemma flush_validates_against_updated_map :
  ~ validated_against_preflush_state Sample.started [Sample.A; Sample.B].
Proof.
  intros Claim.
  specialize (Claim [Sample.genesis] Sample.block2 []
                (mkBlock (TxList [Sample.A; Sample.B]) 0 "g''")
                [Sample.A; Sample.B] Sample.B
                eq_refl eq_refl eq_refl eq_refl (or_intror (or_introl eq_refl))).
  vm_compute in Claim. discriminate.
Qed.

(** C8 as worded fails: with distinct miner and owner keys the new coin
    credits the miner's key and not the owner's. *)
Lemma createNewCoin_does_not_credit_owner :
  owner_public_key Sample.fresh = "O-public" /\
  credits "M-public" (createNewCoin_call Sample.fresh) /\
  ~ credits (owner_public_key Sample.fresh) (createNewCoin_call Sample.fresh).
Proof.
  split; [reflexivity|]. split.
  - exists 1. now left.
  - intros [v [H | []]]. discriminate.
Qed.

Lemma push_waits_for_all_exports_witness :
  exists bc m1 m2 bc2,
    computeHash Sample.busy = Ok (Exporting bc) m1 /\
    run Sample.deliveries (m1, bc) = Some (m2, bc2) /\
    (completed_exports bc2 + List.length (connecting bc2)
       + List.length (exporting bc2) = List.length (node_list m1))%nat /\
    (resolved bc2 = true ->
     connecting bc2 = [] /\ exporting bc2 = [] /\
     completed_exports bc2 = List.length (node_list m1)) /\
    (resolved bc2 = false ->
     no_chain_event Sample.deliveries = true ->
     blockchain m2 = blockchain m1).
Proof.
  do 4 eexists.
  split; [vm_compute; reflexivity|].
  split; [vm_compute; reflexivity|].
  eapply (push_waits_for_all_exports Sample.busy).
  - vm_compute. reflexivity.
  - vm_compute. reflexivity.
Defined.

Lemma solve_without_peers_never_pushes_witness :
  exists bc m1 m2 bc2,
    computeHash Sample.solo = Ok (Exporting bc) m1 /\
    run Sample.late_peer (m1, bc) = Some (m2, bc2) /\
    bc = mkBroadcast 0 [] [] false /\
    bc2 = bc /\
    resolved bc2 = false /\
    (no_chain_event Sample.late_peer = true ->
     blockchain m2 = blockchain m1).
Proof.
  do 4 eexists.
  split; [vm_compute; reflexivity|].
  split; [vm_compute; reflexivity|].
  eapply (solve_without_peers_never_pushes Sample.solo).
  - reflexivity.
  - vm_compute. reflexivity.
  - vm_compute. reflexivity.
Defined.

(** C4 as worded fails: while both exports of a solve are pending, a longer
    valid chain comes in; [receiveNewBlockchain] adopts it and pushes a
    block, and the chain has grown from two blocks to four. *)
Lemma inbound_chain_advances_during_broadcast :
  ~ chain_height_waits_for_exports Sample.busy.
Proof.
  intros Claim.
  destruct (Claim
              (mkBroadcast 0 [Sample.peer1; Sample.peer2] [] false)
              (solved_state Sample.busy [Sample.genesis] Sample.block1)
              Sample.overtaken
              (pushed
                 (adopted [Sample.genesis; Sample.block1; Sample.block2]
                    [Sample.A]
                    (set_logger
                       (logger
                          (solved_state Sample.busy [Sample.genesis]
                             Sample.block1)
                        ++ [sending_line Sample.peer1])
                       (solved_state Sample.busy [Sample.genesis]
                          Sample.block1))))
              (mkBroadcast 0 [Sample.peer2] [Sample.peer1] false))
    as [Opening _].
  - vm_compute. reflexivity.
  - vm_compute. reflexivity.
  - vm_compute. lia.
  - discriminate.
Qed.

(** * The further properties on sample miners *)

Lemma data_push_pop_restores_witness :
  bind (data_push Sample.C) (fun _ => data_pop) Sample.busy
  = Ok tt Sample.busy.
Proof.
  apply (data_push_pop_restores Sample.C Sample.busy Sample.block1 [Sample.A]);
    reflexivity.
Defined.

Lemma flush_without_array_drops_pool_witness :
  flushTransactionPool Sample.bootstrapped =
    Ok (transaction_pool Sample.bootstrapped)
       (set_transaction_pool [] Sample.bootstrapped) /\
  exists errors,
    run_flush [Sample.B; Sample.A] (set_transaction_pool [] Sample.bootstrapped)
      = (set_transaction_pool [] Sample.bootstrapped, errors) /\
    List.length errors = List.length [Sample.B; Sample.A].
Proof.
  apply (flush_without_array_drops_pool Sample.bootstrapped
           [Sample.B; Sample.A]).
  exists "GENESIS". reflexivity.
Defined.

Lemma receiveNewBlockchain_throws_on_marker_tip_witness :
  exists m',
    receiveNewBlockchain [Sample.genesis; Sample.block1] Sample.bootstrapped =
      Throw unit (TypeError "data.map is not a function") m' /\
    same_but_log Sample.bootstrapped m' /\
    blockchain m' = blockchain Sample.bootstrapped /\
    transaction_map m' = transaction_map Sample.bootstrapped /\
    transaction_pool m' = transaction_pool Sample.bootstrapped.
Proof.
  apply (receiveNewBlockchain_throws_on_marker_tip
           [Sample.genesis; Sample.block1] Sample.bootstrapped
           Sample.genesis "GENESIS").
  - reflexivity.
  - reflexivity.
  - cbn. lia.
  - vm_compute. reflexivity.
Defined.

Lemma chain_never_shrinks_witness :
  latestBlock
    (after_calls
       [CallReceiveNewBlockchain [Sample.genesis; Sample.block1];
        CallFlushTransactionPool; CallFlushTransaction Sample.A;
        CallComputeHash]
       Sample.bootstrapped) <> None.
Proof.
  apply (proj2 (chain_never_shrinks
                  [CallReceiveNewBlockchain [Sample.genesis; Sample.block1];
                   CallFlushTransactionPool; CallFlushTransaction Sample.A;
                   CallComputeHash]
                  Sample.bootstrapped)).
  discriminate.
Defined.


Lemma one_solve_pushes_one_block_witness :
  exists bc m1 m2 bc2,
    computeHash Sample.busy = Ok (Exporting bc) m1 /\
    run Sample.deliveries (m1, bc) = Some (m2, bc2) /\
    (resolved bc2 = false ->
     blockchain m2 = blockchain m1 /\
     transaction_pool m2 = transaction_pool m1 ++ received Sample.deliveries) /\
    (resolved bc2 = true ->
     blockchain m2 = blockchain m1 ++ [Block_createFrom (latestBlock m1)] /\
     exists before after,
       received Sample.deliveries = before ++ after /\
       transaction_pool m2 =
         transaction_pool m1 ++ before ++ createNewCoin m1 :: after).
Proof.
  do 4 eexists.
  split; [vm_compute; reflexivity|].
  split; [vm_compute; reflexivity|].
  eapply (one_solve_pushes_one_block Sample.busy).
  - vm_compute. reflexivity.
  - vm_compute. reflexivity.
  - reflexivity.
Defined.

Lemma solve_with_peers_completes_witness :
  exists bc m1 trace m2 bc2,
    computeHash Sample.busy = Ok (Exporting bc) m1 /\
    run trace (m1, bc) = Some (m2, bc2) /\
    no_chain_event trace = true /\
    resolved bc2 = true /\
    completed_exports bc2 = List.length (node_list Sample.busy) /\
    blockchain m2 = blockchain m1 ++ [Block_createFrom (latestBlock m1)] /\
    transaction_pool m2 = transaction_pool m1 ++ [createNewCoin m1].
Proof.
  do 2 eexists.
  assert (Solve : computeHash Sample.busy =
                  Ok (Exporting (mkBroadcast 0 (node_list Sample.busy) [] false))
                     (solved_state Sample.busy [Sample.genesis] Sample.block1))
    by (vm_compute; reflexivity).
  assert (Peers : node_list Sample.busy <> []) by (cbn; discriminate).
  destruct (solve_with_peers_completes Sample.busy _ _ Solve Peers)
    as (trace & m2 & bc2 & H).
  exists trace, m2, bc2. split; [exact Solve | exact H].
Defined.

Lemma peer_added_during_broadcast_blocks_witness :
  exists bc m1 m2 bc2,
    computeHash Sample.busy = Ok (Exporting bc) m1 /\
    run (NodesAdded [mkNode "10.0.0.7" 1339] :: Sample.deliveries) (m1, bc)
      = Some (m2, bc2) /\
    resolved bc2 = false /\
    (completed_exports bc2 < List.length (node_list m2))%nat /\
    (no_chain_event Sample.deliveries = true ->
     blockchain m2 = blockchain m1).
Proof.
  do 4 eexists.
  split; [vm_compute; reflexivity|].
  split; [vm_compute; reflexivity|].
  eapply (peer_added_during_broadcast_blocks Sample.busy _ _
            (mkNode "10.0.0.7" 1339)).
  - vm_compute. reflexivity.
  - cbn. intuition discriminate.
  - vm_compute. reflexivity.
Defined.

Lemma adopted_chain_is_not_adopted_again_witness :
  exists m' m'',
    receiveNewBlockchain [Sample.genesis; Sample.block1; Sample.block2]
      Sample.busy = Ok tt m' /\
    receiveNewBlockchain
      [Sample.genesis; Sample.block1; Sample.block2; Sample.block2] m'
      = Ok tt m'' /\
    same_but_log m' m'' /\
    blockchain m'' = blockchain m' /\
    transaction_map m'' = transaction_map m' /\
    transaction_pool m'' = transaction_pool m'.
Proof.
  apply (adopted_chain_is_not_adopted_again
           [Sample.genesis; Sample.block1; Sample.block2]
           [Sample.genesis; Sample.block1; Sample.block2; Sample.block2]
           Sample.busy [Sample.genesis] Sample.block1 [Sample.A]).
  - reflexivity.
  - reflexivity.
  - cbn. lia.
  - vm_compute. reflexivity.
  - cbn. lia.
Defined.

Lemma mining_finds_the_first_solving_nonce_witness :
  after_calls (repeat CallComputeHash 2) Sample.started =
    set_blockchain
      ([Sample.genesis]
       ++ [set_nonce (nonce Sample.block2 + Z.of_nat 2) Sample.block2])
      Sample.started /\
  computeHash (after_calls (repeat CallComputeHash 2) Sample.started) =
    Ok (Exporting (mkBroadcast 0 (node_list Sample.started) [] false))
       (set_logger
          (logger Sample.started ++ [Line "Solved the hash problem."])
          (set_blockchain
             ([Sample.genesis]
              ++ [set_nonce (nonce Sample.block2 + Z.of_nat 3) Sample.block2])
             Sample.started)).
Proof.
  apply (mining_finds_the_first_solving_nonce 2 Sample.started
           [Sample.genesis] Sample.block2).
  - reflexivity.
  - reflexivity.
  - vm_compute. reflexivity.
  - intros i Hi.
    assert (i = 1 \/ i = 2)%nat as [-> | ->] by lia; reflexivity.
  - reflexivity.
Defined.
